(** * unmessify: the CSV table editor (editor.js) and the offline cache
      controller (sw.js)

    A shallow embedding of the CSV parser and serializer, of the editor's
    row operations and change summary, and of the service worker's fetch and
    activate handlers, with the properties their specification states. *)

From Stdlib Require Import ZArith NArith Lia Ascii String.
From stdpp Require Import base option list sorting gmap.

Local Open Scope Z_scope.

(** ** JavaScript strings

    A JavaScript string is a sequence of UTF-16 code units; [csvText[i]] reads
    one of them.  A code unit is modelled by its number. *)

Abbreviation codeunit := N (only parsing).
Abbreviation jsstring := (list N) (only parsing).

Definition QUOTE : codeunit := 34%N.   (* the double quote *)
Definition COMMA : codeunit := 44%N.   (* the comma *)
Definition LF : codeunit := 10%N.      (* line feed, \n *)
Definition CR : codeunit := 13%N.      (* carriage return, \r *)

(** A string literal of the source, code unit by code unit. *)
Fixpoint js (s : string) : jsstring :=
  match s with
  | EmptyString => []
  | String a rest => N_of_ascii a :: js rest
  end.

Arguments js : simpl never.

(** [String.prototype.trim] strips the code units that are WhiteSpace or
    LineTerminator in ECMAScript: TAB, LF, VT, FF, CR, SP, NBSP, U+1680,
    U+2000..U+200A, U+2028, U+2029, U+202F, U+205F, U+3000 and U+FEFF. *)
Definition isWhiteSpace (c : codeunit) : bool :=
  ((9 <=? c) && (c <=? 13) || (c =? 32) || (c =? 160) || (c =? 5760)
   || (8192 <=? c) && (c <=? 8202) || (c =? 8232) || (c =? 8233)
   || (c =? 8239) || (c =? 8287) || (c =? 12288) || (c =? 65279))%N.

Fixpoint trimStart (s : jsstring) : jsstring :=
  match s with
  | c :: rest => if isWhiteSpace c then trimStart rest else s
  | [] => []
  end.

Definition trimEnd (s : jsstring) : jsstring :=
  reverse (trimStart (reverse s)).

Definition trim (s : jsstring) : jsstring := trimEnd (trimStart s).

(** Truthiness of a string, and [field.length > 0]. *)
Definition nonEmpty (s : jsstring) : bool :=
  match s with [] => false | _ :: _ => true end.

(** [s.includes(c)] for a one-unit needle. *)
Definition includes (c : codeunit) (s : jsstring) : bool := existsb (N.eqb c) s.

(** [parts.join(sep)]. *)
Fixpoint join (sep : jsstring) (parts : list jsstring) : jsstring :=
  match parts with
  | [] => []
  | [p] => p
  | p :: ps => p ++ sep ++ join sep ps
  end.

(** [String(n)] for a non-negative integer: its decimal digits. *)
Fixpoint digits (d : Decimal.uint) : jsstring :=
  match d with
  | Decimal.Nil => []
  | Decimal.D0 d => 48%N :: digits d
  | Decimal.D1 d => 49%N :: digits d
  | Decimal.D2 d => 50%N :: digits d
  | Decimal.D3 d => 51%N :: digits d
  | Decimal.D4 d => 52%N :: digits d
  | Decimal.D5 d => 53%N :: digits d
  | Decimal.D6 d => 54%N :: digits d
  | Decimal.D7 d => 55%N :: digits d
  | Decimal.D8 d => 56%N :: digits d
  | Decimal.D9 d => 57%N :: digits d
  end.

Definition numberToString (n : nat) : jsstring := digits (Nat.to_uint n).

(** A string without leading or trailing whitespace. *)
Definition startsWithWhiteSpace (s : jsstring) : bool :=
  match head s with Some c => isWhiteSpace c | None => false end.

Definition endsWithWhiteSpace (s : jsstring) : bool :=
  match last s with Some c => isWhiteSpace c | None => false end.

Definition trimmed (s : jsstring) : Prop :=
  startsWithWhiteSpace s = false ∧ endsWithWhiteSpace s = false.

(** ** The table (editor.js) *)

Module Editor.

Record Row := { id : Z; values : list jsstring }.
Record Table := { headers : list jsstring; rows : list Row }.

#[export] Instance Row_eq_dec : EqDecision Row.
Proof. solve_decision. Defined.
#[export] Instance Table_eq_dec : EqDecision Table.
Proof. solve_decision. Defined.

(** *** parseCSVRecords

    The body of the [if] taken at a record separator, and again after the
    loop: the pending field is trimmed and pushed, and the record is kept when
    one of its fields is not empty.  It yields the new [records]. *)
Definition pushRecord (records : list (list jsstring))
    (currentRecord : list jsstring) (currentField : jsstring)
    : list (list jsstring) :=
  let currentRecord := currentRecord ++ [trim currentField] in
  if existsb nonEmpty currentRecord then records ++ [currentRecord]
  else records.

(** [currentField.trim() || currentRecord.length > 0] *)
Definition recordPending (currentRecord : list jsstring)
    (currentField : jsstring) : bool :=
  nonEmpty (trim currentField) || (0 <? length currentRecord)%nat.

(** The records once a separator or the end of the text has dealt with the
    pending record. *)
Definition recordsAt (records : list (list jsstring))
    (currentRecord : list jsstring) (currentField : jsstring)
    : list (list jsstring) :=
  if recordPending currentRecord currentField
  then pushRecord records currentRecord currentField else records.

(** The [while (i < csvText.length)] loop, on the text that is left from
    index [i] on, followed by the handling of the last record.  [i += 2]
    drops two code units, [csvText[i + 1]] is the head of what follows. *)
Fixpoint scan (csvText : jsstring) (records : list (list jsstring))
    (currentRecord : list jsstring) (currentField : jsstring)
    (inQuotes : bool) {struct csvText} : list (list jsstring) :=
  match csvText with
  | [] =>
      if recordPending currentRecord currentField
      then pushRecord records currentRecord currentField
      else records
  | char :: rest =>
      if N.eqb char QUOTE then
        match rest with
        | next :: rest' =>
            if inQuotes && N.eqb next QUOTE
            then scan rest' records currentRecord (currentField ++ [QUOTE]) inQuotes
            else scan rest records currentRecord currentField (negb inQuotes)
        | [] => scan rest records currentRecord currentField (negb inQuotes)
        end
      else if negb inQuotes && N.eqb char COMMA then
        scan rest records (currentRecord ++ [trim currentField]) [] inQuotes
      else if negb inQuotes && (N.eqb char LF || N.eqb char CR) then
        let pending := recordPending currentRecord currentField in
        let records' :=
          if pending then pushRecord records currentRecord currentField
          else records in
        let currentRecord' := if pending then [] else currentRecord in
        let currentField' := if pending then [] else currentField in
        match rest with
        | next :: rest' =>
            if N.eqb char CR && N.eqb next LF
            then scan rest' records' currentRecord' currentField' inQuotes
            else scan rest records' currentRecord' currentField' inQuotes
        | [] => scan rest records' currentRecord' currentField' inQuotes
        end
      else scan rest records currentRecord (currentField ++ [char]) inQuotes
  end.

Definition parseCSVRecords (csvText : jsstring) : list (list jsstring) :=
  scan csvText [] [] [] false.

(** *** parseCSV

    [while (record.length < headers.length) record.push('')] *)
Definition padRecord (n : nat) (record : list jsstring) : list jsstring :=
  record ++ replicate (n - length record) [].

Definition parseCSV (csvText : jsstring) : Table :=
  match parseCSVRecords csvText with
  | [] => {| headers := []; rows := [] |}
  | headers :: rest =>
      {| headers := headers;
         rows := imap (λ index record,
                         {| id := Z.of_nat index;
                            values := padRecord (length headers) record |})
                      rest |}
  end.

(** *** generateCSVContent *)
Definition escapeCSVField (field : jsstring) : jsstring :=
  if includes COMMA field || includes QUOTE field
     || includes LF field || includes CR field
  then [QUOTE] ++ (field ≫= λ c, if N.eqb c QUOTE then [QUOTE; QUOTE] else [c])
       ++ [QUOTE]
  else field.

Definition generateCSVContent (currentData : Table) : jsstring :=
  foldl (λ csvContent row,
           csvContent ++ join [COMMA] (escapeCSVField <$> values row) ++ [LF])
        (join [COMMA] (escapeCSVField <$> headers currentData) ++ [LF])
        (rows currentData).

(** *** The editor state

    [originalData], [currentData], [currentFile] and [hasChanges] are the
    module-level variables of editor.js; [currentFile] is [null] or the name
    of a file.  The two tables never share a row object: each is made by
    [JSON.parse(JSON.stringify(...))]. *)
Record EditorState := {
  originalData : Table;
  currentData : Table;
  currentFile : option jsstring;
  hasChanges : bool
}.

#[export] Instance EditorState_eq_dec : EqDecision EditorState.
Proof. solve_decision. Defined.

(** [JSON.stringify(originalData) !== JSON.stringify(currentData)]: both
    tables are built with the same key order and hold integers and strings
    only, so the two texts differ exactly when the tables differ. *)
Definition checkForChanges (st : EditorState) : EditorState :=
  {| originalData := originalData st;
     currentData := currentData st;
     currentFile := currentFile st;
     hasChanges := bool_decide (originalData st ≠ currentData st) |}.

(** [loadFileData]: [currentFile] is assigned first, then the file is
    fetched.  [fetched] is the text of the file, or [None] when the fetch
    fails or its status is not ok: the function throws then, before it
    assigns a table. *)
Definition loadFileData (st : EditorState) (filename : jsstring)
    (fetched : option jsstring) : EditorState :=
  match fetched with
  | Some csvText =>
      let data := parseCSV csvText in
      {| originalData := data;
         currentData := data;
         currentFile := Some filename;
         hasChanges := hasChanges st |}
  | None =>
      {| originalData := originalData st;
         currentData := currentData st;
         currentFile := Some filename;
         hasChanges := hasChanges st |}
  end.

(** [handleCellChange]: [rowId], [colIndex] and [newValue] are read from the
    input element.  [renderTable] writes one input per slot of [row.values],
    so [colIndex] addresses an existing slot; the statements about a write
    assume it (an index past the end is outside this model, where
    [<[colIndex := _]>] leaves the list as it is). *)
Definition handleCellChange (st : EditorState) (rowId : Z) (colIndex : nat)
    (newValue : jsstring) : EditorState :=
  match list_find (λ r, id r = rowId) (rows (currentData st)) with
  | Some (index, row) =>
      let row' := {| id := id row;
                     values := <[colIndex := newValue]> (values row) |} in
      checkForChanges
        {| originalData := originalData st;
           currentData :=
             {| headers := headers (currentData st);
                rows := <[index := row']> (rows (currentData st)) |};
           currentFile := currentFile st;
           hasChanges := hasChanges st |}
  | None => st
  end.

(** [Math.max(...currentData.rows.map(r => r.id), -1) + 1] *)
Definition newRowId (currentData : Table) : Z :=
  foldr Z.max (-1) (id <$> rows currentData) + 1.

Definition addRow (st : EditorState) : EditorState :=
  let newRow := {| id := newRowId (currentData st);
                   values := replicate (length (headers (currentData st))) [] |} in
  checkForChanges
    {| originalData := originalData st;
       currentData := {| headers := headers (currentData st);
                         rows := rows (currentData st) ++ [newRow] |};
       currentFile := currentFile st;
       hasChanges := hasChanges st |}.

(** [deleteSelectedRow]: [selectedRowIds] are the ids of the checked rows,
    [confirmed] is the answer to the confirmation dialog. *)
Definition deleteSelectedRow (st : EditorState) (selectedRowIds : list Z)
    (confirmed : bool) : EditorState :=
  if bool_decide (length selectedRowIds = 0%nat) then st
  else if negb confirmed then st
  else
    checkForChanges
      {| originalData := originalData st;
         currentData :=
           {| headers := headers (currentData st);
              rows := filter (λ row, id row ∉ selectedRowIds)
                             (rows (currentData st)) |};
         currentFile := currentFile st;
         hasChanges := hasChanges st |}.

(** *** calculateChanges *)
Inductive ChangeType := added | deleted | modified.

Record Change := { type : ChangeType; description : jsstring }.

#[export] Instance ChangeType_eq_dec : EqDecision ChangeType.
Proof. solve_decision. Defined.
#[export] Instance Change_eq_dec : EqDecision Change.
Proof. solve_decision. Defined.

(** [`${row.values.slice(0, 2).join(', ')}...`] *)
Definition summary (values : list jsstring) : jsstring :=
  join (js ", ") (take 2 values) ++ js "...".

(** [`Row ${currentData.rows.indexOf(row) + 1}: ...`]; [index] is the position
    of the row in [currentData.rows]. *)
Definition rowLabel (index : nat) (row : Row) : jsstring :=
  js "Row " ++ numberToString (index + 1) ++ js ": " ++ summary (values row).

Definition addedChange (index : nat) (row : Row) : Change :=
  {| type := added; description := rowLabel index row |}.

Definition deletedChange (row : Row) : Change :=
  {| type := deleted;
     description := js "Row with data: " ++ summary (values row) |}.

Definition modifiedChange (index : nat) (currentRow : Row) : Change :=
  {| type := modified; description := rowLabel index currentRow |}.

(** [originalData.rows.find(r => r.id === currentRow.id)] *)
Definition findRow (rowId : Z) (rows : list Row) : option Row :=
  snd <$> list_find (λ r, id r = rowId) rows.

Definition calculateChanges (st : EditorState) : list Change :=
  let originalRows := rows (originalData st) in
  let currentRows := rows (currentData st) in
  let originalRowIds : gset Z := list_to_set (id <$> originalRows) in
  let currentRowIds : gset Z := list_to_set (id <$> currentRows) in
  (* Check for added rows *)
  omap (λ '(index, row),
          if decide (id row ∈ originalRowIds) then None
          else Some (addedChange index row))
       (imap pair currentRows)
  (* Check for deleted rows *)
  ++ omap (λ row,
             if decide (id row ∈ currentRowIds) then None
             else Some (deletedChange row))
          originalRows
  (* Check for modified rows *)
  ++ omap (λ '(index, currentRow),
             match findRow (id currentRow) originalRows with
             | Some originalRow =>
                 if decide (values currentRow ≠ values originalRow)
                 then Some (modifiedChange index currentRow)
                 else None
             | None => None
             end)
          (imap pair currentRows).

(** *** An editing session: rows are added and deleted *)
Inductive Action :=
  | AddRow
  | DeleteRows (selectedRowIds : list Z) (confirmed : bool).

Definition step (st : EditorState) (a : Action) : EditorState :=
  match a with
  | AddRow => addRow st
  | DeleteRows selectedRowIds confirmed =>
      deleteSelectedRow st selectedRowIds confirmed
  end.

(** The ids of the rows that have left the table between two states. *)
Definition removedIds (before after : EditorState) : list Z :=
  filter (λ i, i ∉ (id <$> rows (currentData after)))
         (id <$> rows (currentData before)).

(** No [addRow] of the session hands out an id that is in [retired], the ids
    of the rows deleted so far. *)
Fixpoint neverReuses (retired : list Z) (st : EditorState)
    (actions : list Action) : Prop :=
  match actions with
  | [] => True
  | AddRow :: rest =>
      (newRowId (currentData st) ∉ retired)
      ∧ neverReuses retired (addRow st) rest
  | a :: rest =>
      neverReuses (retired ++ removedIds st (step st a)) (step st a) rest
  end.

(** *** The other handlers of the editor

    [resetChanges]; [confirmed] is the answer to the confirmation dialog. *)
Definition resetChanges (st : EditorState) (confirmed : bool) : EditorState :=
  if negb confirmed then st
  else
    checkForChanges
      {| originalData := originalData st;
         currentData := originalData st;
         currentFile := currentFile st;
         hasChanges := hasChanges st |}.

(** [saveChanges]: the flag is cleared without a comparison. *)
Definition saveChanges (st : EditorState) : EditorState :=
  {| originalData := currentData st;
     currentData := currentData st;
     currentFile := currentFile st;
     hasChanges := false |}.


(** [selectFile]: the dialog is shown only when there are changes; what
    [loadFileData] throws is caught and reported, the state being what
    [loadFileData] left. *)
Definition selectFile (st : EditorState) (filename : jsstring)
    (confirmed : bool) (fetched : option jsstring) : EditorState :=
  if hasChanges st && negb confirmed then st
  else loadFileData st filename fetched.

(** *** escapeHtml

    Each ampersand, angle bracket, double quote and apostrophe of the text
    is replaced by its entry in [map]; the other code units stay. *)
Definition AMPERSAND : codeunit := 38%N.
Definition LESS : codeunit := 60%N.
Definition GREATER : codeunit := 62%N.
Definition APOSTROPHE : codeunit := 39%N.

Definition escapeHtml (text : jsstring) : jsstring :=
  text ≫= λ m,
    if N.eqb m AMPERSAND then js "&amp;"
    else if N.eqb m LESS then js "&lt;"
    else if N.eqb m GREATER then js "&gt;"
    else if N.eqb m QUOTE then js "&quot;"
    else if N.eqb m APOSTROPHE then js "&#039;"
    else [m].

(** *** The value shown in a cell ([renderTable])

    The global replacement on the text between the outer quotes: every
    pair of double quotes, from the left, becomes one double quote. *)
Fixpoint unpairQuotes (s : jsstring) : jsstring :=
  match s with
  | [] => []
  | c :: rest =>
      match rest with
      | next :: rest' =>
          if N.eqb c QUOTE && N.eqb next QUOTE
          then QUOTE :: unpairQuotes rest'
          else c :: unpairQuotes rest
      | [] => [c]
      end
  end.

(** [value.slice(1, -1)] *)
Definition sliceInner (s : jsstring) : jsstring := removelast (tail s).

(** [cleanValue]: a value that starts and ends with a double quote is shown
    without them, its quote pairs undone. *)
Definition cleanValue (value : jsstring) : jsstring :=
  if bool_decide (head value = Some QUOTE)
     && bool_decide (last value = Some QUOTE)
  then unpairQuotes (sliceInner value)
  else value.

(** *** The events of a session

    What the user does with a loaded table: a cell input, the add, delete and
    reset buttons, and the save button of the preview. *)
Inductive Event :=
  | CellChanged (rowId : Z) (colIndex : nat) (newValue : jsstring)
  | RowAdded
  | RowsDeleted (selectedRowIds : list Z) (confirmed : bool)
  | ChangesReset (confirmed : bool)
  | ChangesSaved.

Definition handle (st : EditorState) (e : Event) : EditorState :=
  match e with
  | CellChanged rowId colIndex newValue =>
      handleCellChange st rowId colIndex newValue
  | RowAdded => addRow st
  | RowsDeleted selectedRowIds confirmed =>
      deleteSelectedRow st selectedRowIds confirmed
  | ChangesReset confirmed => resetChanges st confirmed
  | ChangesSaved => saveChanges st
  end.

(** A cell input comes from an element that [renderTable] made: it carries
    the id of a row of the current table and the index of one of its values. *)
Definition rendered (st : EditorState) (e : Event) : Prop :=
  match e with
  | CellChanged rowId colIndex _ =>
      ∃ row, row ∈ rows (currentData st) ∧ id row = rowId
             ∧ (colIndex < length (values row))%nat
  | _ => True
  end.

(** The states of a session: a file is loaded while no change is pending, and
    events follow. *)
Inductive reachable : EditorState → Prop :=
  | reachable_load st filename csvText :
      hasChanges st = false →
      reachable (loadFileData st filename (Some csvText))
  | reachable_handle st e :
      reachable st → rendered st e → reachable (handle st e).

End Editor.

(** ** The offline cache controller (sw.js) *)

Module ServiceWorker.

Record Request := { url : jsstring; destination : jsstring }.
Record Response := { status : Z; type : jsstring; body : jsstring }.

#[export] Instance Request_eq_dec : EqDecision Request.
Proof. solve_decision. Defined.
#[export] Instance Response_eq_dec : EqDecision Response.
Proof. solve_decision. Defined.

(** A cache bucket maps request URLs to responses; the cache storage holds the
    named buckets in the order of their creation, the order in which
    [caches.match] looks through them. *)
Abbreviation Cache := (gmap (list N) Response) (only parsing).
Abbreviation CacheStorage := (list (list N * Cache)) (only parsing).

(** [caches.keys()] *)
Definition caches_keys (caches : CacheStorage) : list jsstring := caches.*1.

(** [caches.match(request)] *)
Fixpoint caches_match (key : jsstring) (caches : CacheStorage)
    : option Response :=
  match caches with
  | [] => None
  | (_, cache) :: rest =>
      match cache !! key with
      | Some response => Some response
      | None => caches_match key rest
      end
  end.

(** [caches.open(name)]: the bucket is created when there is none. *)
Definition caches_open (name : jsstring) (caches : CacheStorage) : CacheStorage :=
  if decide (name ∈ caches_keys caches) then caches
  else caches ++ [(name, ∅)].

(** [cache.put(key, response)] on the bucket [name]. *)
Fixpoint cache_put (name key : jsstring) (response : Response)
    (caches : CacheStorage) : CacheStorage :=
  match caches with
  | [] => []
  | (n, cache) :: rest =>
      if decide (n = name) then (n, <[key := response]> cache) :: rest
      else (n, cache) :: cache_put name key response rest
  end.

(** [caches.delete(name)] *)
Definition caches_delete (name : jsstring) (caches : CacheStorage) : CacheStorage :=
  filter (λ bucket, bucket.1 ≠ name) caches.

(** What the bucket [name] holds for [key]. *)
Fixpoint bucket_lookup (name key : jsstring) (caches : CacheStorage)
    : option Response :=
  match caches with
  | [] => None
  | (n, cache) :: rest =>
      if decide (n = name) then cache !! key else bucket_lookup name key rest
  end.

Section Handlers.

Variable CACHE_NAME : jsstring.

(** The fetch listener.  [network request] is the outcome of
    [fetch(event.request)]: a response, or [None] when the promise rejects.
    The result is the response handed to [event.respondWith] ([None] when
    the chain resolves to [undefined]) and the cache storage once the
    pending [cache.put] has run. *)
Definition onFetch (network : Request → option Response)
    (caches : CacheStorage) (request : Request)
    : option Response * CacheStorage :=
  match caches_match (url request) caches with
  | Some response => (Some response, caches)
  | None =>
      match network request with
      | Some response =>
          if bool_decide (status response ≠ 200)
             || bool_decide (type response ≠ js "basic")
          then (Some response, caches)
          else (Some response,
                cache_put CACHE_NAME (url request) response
                          (caches_open CACHE_NAME caches))
      | None =>
          if bool_decide (destination request = js "document")
          then (caches_match (js "/index.html") caches, caches)
          else (None, caches)
      end
  end.

(** The activate listener: every name of [caches.keys()] is visited. *)
Definition onActivate (caches : CacheStorage) : CacheStorage :=
  foldl (λ caches cacheName,
           if decide (cacheName ≠ CACHE_NAME)
           then caches_delete cacheName caches
           else caches)
        caches (caches_keys caches).

End Handlers.

(** *** The background refresh *)

(** The datasets of the application. *)
Definition dataFiles : list jsstring :=
  [ js "VITC-A-L"; js "VITC-B-L"; js "VITC-CB-L"; js "VITC-CG-L";
    js "VITC-D1-L"; js "VITC-D2-L"; js "VITC-E-L"; js "VITC-M-N";
    js "VITC-M-S"; js "VITC-M-V"; js "VITC-W-N"; js "VITC-W-S";
    js "VITC-W-V" ].

(** [`/json/en/${file}.json`] *)
Definition jsonUrl (file : jsstring) : jsstring :=
  js "/json/en/" ++ file ++ js ".json".

(** The request that [fetch] makes for a URL given as a string. *)
Definition requestFor (u : jsstring) : Request :=
  {| url := u; destination := [] |}.

(** [response.ok]: the status is in the range 200 to 299. *)
Definition ok (response : Response) : bool :=
  (200 <=? status response) && (status response <=? 299).

Section Refresh.

Variable CACHE_NAME : jsstring.

(** [updateCache]: the files are fetched one after the other; a fetch that
    fails is logged and the loop goes on. *)
Definition updateCache (network : Request → option Response)
    (caches : CacheStorage) : CacheStorage :=
  foldl (λ caches file,
           match network (requestFor (jsonUrl file)) with
           | Some response =>
               if ok response
               then cache_put CACHE_NAME (jsonUrl file) response caches
               else caches
           | None => caches
           end)
        (caches_open CACHE_NAME caches) dataFiles.

(** The sync listener. *)
Definition onSync (tag : jsstring) (network : Request → option Response)
    (caches : CacheStorage) : CacheStorage :=
  if bool_decide (tag = js "background-sync")
  then updateCache network caches
  else caches.

End Refresh.

Definition CACHE_NAME : jsstring := js "unmessify-v20250901".

(** A script of the application, and the network answering with it. *)
Definition scriptRequest : Request :=
  {| url := js "/app.js"; destination := js "script" |}.

Definition scriptResponse : Response :=
  {| status := 200; type := js "basic"; body := js "render()" |}.

(** A page that is not in the cache, and the shell document. *)
Definition pageRequest : Request :=
  {| url := js "/editor.html"; destination := js "document" |}.

Definition shellResponse : Response :=
  {| status := 200; type := js "basic"; body := js "<html>" |}.

End ServiceWorker.

Import Editor.

(** ** Vocabulary of the statements *)

(** A code unit that the serializer writes without quoting the field. *)
Definition separatorFree (c : codeunit) : Prop :=
  c ≠ QUOTE ∧ c ≠ COMMA ∧ c ≠ LF ∧ c ≠ CR.

(** A record with a field that is not empty, all of them trimmed. *)
Definition solid (fields : list jsstring) : Prop :=
  existsb nonEmpty fields = true ∧ Forall trimmed fields.

(** One line of the serialized text. *)
Definition line (fields : list jsstring) : jsstring :=
  join [COMMA] (escapeCSVField <$> fields) ++ [LF].

(** The round trip as the specification words it: the rows have a field that
    is not empty, and no header or cell has whitespace at either end. *)
Definition roundTripAsSpecified : Prop :=
  ∀ t : Table,
    Forall (λ row, existsb nonEmpty (values row) = true) (rows t) →
    Forall trimmed (headers t) →
    Forall (λ row, Forall trimmed (values row)) (rows t) →
    parseCSV (generateCSVContent t) = t.

(** A table under a header of two empty names, with one row. *)
Definition blankHeaderTable : Table :=
  {| headers := [[]; []];
     rows := [ {| id := 0; values := [js "a"; js "b"] |} ] |}.

(** A table as it is after the row with id 1 was deleted. *)
Definition gapTable : Table :=
  {| headers := [js "Day"];
     rows := [ {| id := 0; values := [js "Mon"] |};
               {| id := 2; values := [js "Wed"] |} ] |}.

(** A session on the file of the specification's example. *)
Definition exampleText : jsstring :=
  js "Date,RoomNumber" ++ [LF] ++ js "1,101-150" ++ [LF] ++ js "2," ++ [LF].

Definition exampleFile : jsstring := js "VITC-A-L.csv".

Definition exampleState : EditorState :=
  loadFileData {| originalData := {| headers := []; rows := [] |};
                  currentData := {| headers := []; rows := [] |};
                  currentFile := None;
                  hasChanges := false |}
               exampleFile (Some exampleText).

(** The claim as the specification words it: in no session that starts from a
    parsed table does addRow hand out the id of a row deleted before. *)
Definition idsNeverReused : Prop :=
  ∀ (st : EditorState) (filename csvText : jsstring) (actions : list Action),
    neverReuses [] (loadFileData st filename (Some csvText)) actions.

(** The ids of the rows of a table grow along the table. *)
Definition idsAscending (t : Table) : Prop :=
  StronglySorted Z.lt (id <$> rows t).

(** What a session keeps: the headers of the two tables are the same, the ids
    of both grow along the rows, and the flag says whether the tables
    differ. *)
Definition coherent (st : EditorState) : Prop :=
  headers (currentData st) = headers (originalData st)
  ∧ idsAscending (originalData st)
  ∧ idsAscending (currentData st)
  ∧ hasChanges st = bool_decide (originalData st ≠ currentData st).

(** The ways a line of a CSV file ends. *)
Definition lineBreak (terminator : jsstring) : Prop :=
  terminator = [LF] ∨ terminator = [CR] ∨ terminator = [CR; LF].

(** The text of a file whose lines end each in its own way, and whose last
    line may come without a line break. *)
Definition written (ended : list (list jsstring * jsstring))
    (unended : option (list jsstring)) : jsstring :=
  mjoin ((λ l, join [COMMA] (escapeCSVField <$> l.1) ++ l.2) <$> ended)
  ++ from_option (λ fields, join [COMMA] (escapeCSVField <$> fields)) [] unended.

(** What follows a carriage return: a line feed right after it is skipped. *)
Definition afterCarriageReturn (rest : jsstring) : jsstring :=
  match rest with
  | next :: rest' => if N.eqb next LF then rest' else rest
  | [] => rest
  end.

(** Code units of which blank records are made. *)
Definition blankUnit (c : codeunit) : Prop :=
  c = COMMA ∨ isWhiteSpace c = true.

(** Code units that end a tag or an attribute value in HTML, or start one. *)
Definition markup (c : codeunit) : Prop :=
  c = LESS ∨ c = GREATER ∨ c = QUOTE ∨ c = APOSTROPHE.

(** A record with a field that is not empty. *)
Definition notBlank (record : list jsstring) : Prop :=
  existsb nonEmpty record = true.

(** ** Trimming *)

Section Trim.

Implicit Types s : jsstring.

Lemma trimmed_spec s :
  trimmed s ↔
  (∀ c, head s = Some c → isWhiteSpace c = false) ∧
  (∀ c, last s = Some c → isWhiteSpace c = false).
Proof.
  unfold trimmed, startsWithWhiteSpace, endsWithWhiteSpace. split.
  - intros [Hh Hl].
    split; intros c Hc; [by rewrite Hc in Hh | by rewrite Hc in Hl].
  - intros [Hh Hl]. split.
    + destruct (head s) as [c|]; [by apply Hh | done].
    + destruct (last s) as [c|]; [by apply Hl | done].
Qed.

Lemma trimStart_suffix s : ∃ blanks, s = blanks ++ trimStart s.
Proof.
  induction s as [|c s [blanks IH]]; simpl.
  - by exists [].
  - destruct (isWhiteSpace c).
    + exists (c :: blanks). simpl. by f_equal.
    + by exists [].
Qed.

Lemma trimStart_head s c :
  head (trimStart s) = Some c → isWhiteSpace c = false.
Proof.
  induction s as [|d s IH]; simpl; [done|].
  destruct (isWhiteSpace d) eqn:Hd; [done|].
  simpl. by intros [= <-].
Qed.

Lemma trimStart_id s :
  (∀ c, head s = Some c → isWhiteSpace c = false) → trimStart s = s.
Proof.
  destruct s as [|c s]; simpl; [done|].
  intros H. by rewrite (H c eq_refl).
Qed.

Lemma trimStart_last s c :
  last (trimStart s) = Some c → last s = Some c.
Proof.
  destruct (trimStart_suffix s) as [blanks Hs]. intros Hl.
  rewrite Hs at 1. rewrite last_app. by rewrite Hl.
Qed.

Lemma trim_trimmed s : trimmed (trim s).
Proof.
  apply trimmed_spec. unfold trim, trimEnd. split; intros c.
  - rewrite head_reverse. intros Hl.
    apply trimStart_last in Hl. rewrite last_reverse in Hl.
    by apply trimStart_head in Hl.
  - rewrite last_reverse. apply trimStart_head.
Qed.

Lemma trim_id s : trimmed s → trim s = s.
Proof.
  intros [Hh Hl]%trimmed_spec. unfold trim, trimEnd.
  rewrite (trimStart_id s Hh), trimStart_id.
  - apply reverse_involutive.
  - intros c. rewrite head_reverse. apply Hl.
Qed.

Lemma trimmed_nil : trimmed [].
Proof. by split. Qed.

End Trim.

(** ** One step of the scan *)

Local Ltac scan_goes_on :=
  do 5 eexists; split; [reflexivity|]; repeat split; eauto.

Section ScanSteps.

Implicit Types (csvText rest field : jsstring) (records : list (list jsstring))
  (currentRecord : list jsstring) (inQuotes : bool).

(** A code unit inside quotes, or one that is no separator outside them, is
    appended to the field. *)
Lemma scan_regular c rest records currentRecord field inQuotes :
  c ≠ QUOTE →
  inQuotes = true ∨ (c ≠ COMMA ∧ c ≠ LF ∧ c ≠ CR) →
  scan (c :: rest) records currentRecord field inQuotes
  = scan rest records currentRecord (field ++ [c]) inQuotes.
Proof.
  intros Hq Hc. cbn [scan].
  rewrite (proj2 (N.eqb_neq c QUOTE) Hq).
  destruct Hc as [-> | (Hcomma & Hlf & Hcr)]; [done|].
  rewrite (proj2 (N.eqb_neq c COMMA) Hcomma), (proj2 (N.eqb_neq c LF) Hlf),
    (proj2 (N.eqb_neq c CR) Hcr).
  by destruct inQuotes.
Qed.

Lemma scan_comma rest records currentRecord field :
  scan (COMMA :: rest) records currentRecord field false
  = scan rest records (currentRecord ++ [trim field]) [] false.
Proof. reflexivity. Qed.

Lemma scan_escaped_quote rest records currentRecord field :
  scan (QUOTE :: QUOTE :: rest) records currentRecord field true
  = scan rest records currentRecord (field ++ [QUOTE]) true.
Proof. reflexivity. Qed.

Lemma scan_open_quote rest records currentRecord field :
  scan (QUOTE :: rest) records currentRecord field false
  = scan rest records currentRecord field true.
Proof. by destruct rest. Qed.

Lemma scan_close_quote rest records currentRecord field :
  head rest ≠ Some QUOTE →
  scan (QUOTE :: rest) records currentRecord field true
  = scan rest records currentRecord field false.
Proof.
  intros Hnext. destruct rest as [|next rest]; [done|].
  cbn [scan]. simpl in Hnext.
  assert (next ≠ QUOTE) as Hne by congruence.
  change (N.eqb QUOTE QUOTE) with true. cbv iota.
  by rewrite (proj2 (N.eqb_neq next QUOTE) Hne).
Qed.

Lemma scan_nil records currentRecord field inQuotes :
  scan [] records currentRecord field inQuotes
  = recordsAt records currentRecord field.
Proof. reflexivity. Qed.

(** Every step of the loop goes on with the text after one or two code
    units, with the records the separator may have completed, a record
    that is empty, the same, or longer by the trimmed field, and the quote
    flag kept or flipped. *)
Lemma scan_cons c rest records currentRecord field inQuotes :
  ∃ rest' records' currentRecord' field' inQuotes',
    scan (c :: rest) records currentRecord field inQuotes
    = scan rest' records' currentRecord' field' inQuotes'
    ∧ (rest' = rest ∨ ∃ next, rest = next :: rest')
    ∧ (records' = records ∨ records' = recordsAt records currentRecord field)
    ∧ (currentRecord' = currentRecord ∨ currentRecord' = []
       ∨ currentRecord' = currentRecord ++ [trim field]).
Proof.
  cbn [scan]. fold (recordsAt records currentRecord field).
  destruct (N.eqb c QUOTE).
  { destruct rest as [|next rest]; [scan_goes_on|].
    destruct (inQuotes && N.eqb next QUOTE); scan_goes_on. }
  destruct (negb inQuotes && N.eqb c COMMA); [scan_goes_on|].
  destruct (negb inQuotes && (N.eqb c LF || N.eqb c CR)); [|scan_goes_on].
  unfold recordsAt.
  destruct (recordPending currentRecord field);
    (destruct rest as [|next rest]; [scan_goes_on|]);
    destruct (N.eqb c CR && N.eqb next LF); scan_goes_on.
Qed.

Lemma scan_line_feed rest records currentRecord field :
  scan (LF :: rest) records currentRecord field false
  = if recordPending currentRecord field
    then scan rest (pushRecord records currentRecord field) [] [] false
    else scan rest records currentRecord field false.
Proof.
  cbn [scan]. change (N.eqb LF QUOTE) with false.
  change (N.eqb LF COMMA) with false. change (N.eqb LF LF) with true.
  change (N.eqb LF CR) with false. cbn [negb andb orb].
  by destruct rest, (recordPending currentRecord field).
Qed.

End ScanSteps.

(** From here on the scan is unfolded through these equations only. *)
Arguments scan : simpl never.

(** ** Scanning what the serializer writes *)

Section ScanSerialized.

Implicit Types (rest field : jsstring) (fields : list jsstring)
  (records : list (list jsstring)) (currentRecord : list jsstring).

Lemma includes_false c field :
  includes c field = false → Forall (λ d, d ≠ c) field.
Proof.
  unfold includes. induction field as [|d field IH]; simpl; [constructor|].
  intros [Hd Hrest]%orb_false_elim. constructor; [|by apply IH].
  apply N.eqb_neq in Hd. congruence.
Qed.

Lemma escapeCSVField_plain field :
  escapeCSVField field = field ∧ Forall separatorFree field
  ∨ escapeCSVField field
    = [QUOTE] ++ (field ≫= λ c, if N.eqb c QUOTE then [QUOTE; QUOTE] else [c])
      ++ [QUOTE].
Proof.
  unfold escapeCSVField.
  destruct (includes COMMA field) eqn:Hcomma; [by right|].
  destruct (includes QUOTE field) eqn:Hquote; [by right|].
  destruct (includes LF field) eqn:Hlf; [by right|].
  destruct (includes CR field) eqn:Hcr; [by right|].
  left. split; [done|].
  apply includes_false in Hcomma, Hquote, Hlf, Hcr.
  rewrite Forall_forall in *. unfold separatorFree. naive_solver.
Qed.

Lemma scan_plain field rest records currentRecord pending :
  Forall separatorFree field →
  scan (field ++ rest) records currentRecord pending false
  = scan rest records currentRecord (pending ++ field) false.
Proof.
  intros Hfree. revert pending.
  induction Hfree as [|c field (Hq & Hsep) _ IH]; intros pending; simpl.
  - by rewrite app_nil_r.
  - rewrite scan_regular by auto. rewrite IH. by rewrite <- app_assoc.
Qed.

Lemma scan_quoted_body field rest records currentRecord pending :
  head rest ≠ Some QUOTE →
  scan ((field ≫= λ c, if N.eqb c QUOTE then [QUOTE; QUOTE] else [c])
        ++ QUOTE :: rest) records currentRecord pending true
  = scan rest records currentRecord (pending ++ field) false.
Proof.
  intros Hrest. revert pending.
  induction field as [|c field IH]; intros pending.
  - simpl. rewrite scan_close_quote by done. by rewrite app_nil_r.
  - rewrite bind_cons. cbn beta. destruct (N.eqb_spec c QUOTE) as [->|Hc].
    + simpl. rewrite scan_escaped_quote, IH. by rewrite <- app_assoc.
    + simpl. rewrite scan_regular by auto. rewrite IH. by rewrite <- app_assoc.
Qed.

(** A serialized field, followed by a separator, is read back as it was. *)
Lemma scan_field field rest records currentRecord :
  head rest ≠ Some QUOTE →
  scan (escapeCSVField field ++ rest) records currentRecord [] false
  = scan rest records currentRecord field false.
Proof.
  intros Hrest.
  destruct (escapeCSVField_plain field) as [[-> Hfree] | ->].
  - by rewrite scan_plain.
  - rewrite <- !app_assoc. simpl. rewrite scan_open_quote.
    by rewrite scan_quoted_body.
Qed.

Lemma join_cons sep (p : jsstring) (ps : list jsstring) :
  ps ≠ [] → join sep (p :: ps) = p ++ sep ++ join sep ps.
Proof. by destruct ps. Qed.

Lemma scan_fields init lastField rest records currentRecord :
  Forall trimmed init →
  scan (join [COMMA] (escapeCSVField <$> init ++ [lastField]) ++ LF :: rest)
       records currentRecord [] false
  = scan (LF :: rest) records (currentRecord ++ init) lastField false.
Proof.
  intros Htrim. revert currentRecord.
  induction Htrim as [|field init Hfield _ IH]; intros currentRecord.
  - simpl. rewrite scan_field by done. by rewrite app_nil_r.
  - change ((field :: init) ++ [lastField]) with (field :: (init ++ [lastField])).
    rewrite fmap_cons, join_cons.
    2: { rewrite fmap_app. simpl. by destruct (escapeCSVField <$> init). }
    rewrite <- !app_assoc. rewrite scan_field by done.
    simpl. rewrite scan_comma, IH, (trim_id field) by done.
    by rewrite <- app_assoc.
Qed.

Lemma scan_line fields rest records :
  solid fields →
  scan (join [COMMA] (escapeCSVField <$> fields) ++ LF :: rest)
       records [] [] false
  = scan rest (records ++ [fields]) [] [] false.
Proof.
  intros [Hsome Htrim].
  destruct fields as [|lastField init _] using rev_ind; [done|].
  rewrite Forall_app, Forall_singleton in Htrim.
  destruct Htrim as [Hinit Hlast].
  rewrite scan_fields by done. rewrite scan_line_feed. simpl.
  unfold recordPending, pushRecord. rewrite (trim_id lastField), Hsome by done.
  destruct lastField as [|c lastField]; [|done].
  destruct init as [|field init]; [done|]. done.
Qed.

Lemma scan_lines (lines : list (list jsstring)) records :
  Forall solid lines →
  scan (mjoin (line <$> lines)) records [] [] false = records ++ lines.
Proof.
  intros Hlines. revert records.
  induction Hlines as [|fields lines Hfields _ IH]; intros records.
  - simpl. by rewrite app_nil_r.
  - simpl. unfold line at 1.
    rewrite <- !app_assoc. simpl. rewrite scan_line, IH by done.
    by rewrite <- app_assoc.
Qed.

End ScanSerialized.

(** ** The serializer, line by line *)

Lemma generateCSVContent_lines (t : Table) :
  generateCSVContent t = mjoin (line <$> headers t :: (values <$> rows t)).
Proof.
  unfold generateCSVContent. simpl. fold (line (headers t)).
  generalize (line (headers t)). induction (rows t) as [|row l IH]; intros acc.
  - simpl. by rewrite app_nil_r.
  - simpl. rewrite IH. unfold line. by rewrite <- !app_assoc.
Qed.

Lemma parseCSVRecords_generateCSVContent (t : Table) :
  solid (headers t) →
  Forall (λ row, solid (values row)) (rows t) →
  parseCSVRecords (generateCSVContent t) = headers t :: (values <$> rows t).
Proof.
  intros Hheaders Hrows. unfold parseCSVRecords.
  rewrite generateCSVContent_lines, scan_lines; [done|].
  constructor; [done|]. by apply Forall_fmap.
Qed.

Lemma padRecord_long n (record : list jsstring) :
  (n ≤ length record)%nat → padRecord n record = record.
Proof.
  intros Hn. unfold padRecord.
  replace (n - length record)%nat with 0%nat by lia. apply app_nil_r.
Qed.

Lemma padRecord_length n (record : list jsstring) :
  (n ≤ length (padRecord n record))%nat.
Proof. unfold padRecord. rewrite length_app, length_replicate. lia. Qed.

(** ** Round trip through the serializer and the parser *)

(** C1, as stated, fails: the serialized header of [blankHeaderTable] is a
    blank record, which the parser drops, so that the first row is read as
    the header and no row is left. *)
Lemma roundtrip_as_specified_fails : ¬ roundTripAsSpecified.
Proof.
  intros Hclaim.
  assert (parseCSV (generateCSVContent blankHeaderTable) = blankHeaderTable)
    as Hround by (apply Hclaim; repeat constructor).
  assert (parseCSV (generateCSVContent blankHeaderTable)
          = {| headers := [js "a"; js "b"]; rows := [] |}) as Hparsed
    by (vm_compute; reflexivity).
  rewrite Hparsed in Hround. discriminate Hround.
Qed.

(** The parser numbers the rows by position, whatever their ids were. *)
Lemma roundtrip_renumbers_rows :
  parseCSV (generateCSVContent gapTable)
  = {| headers := [js "Day"];
       rows := [ {| id := 0; values := [js "Mon"] |};
                 {| id := 1; values := [js "Wed"] |} ] |}.
Proof. vm_compute. reflexivity. Qed.

(** C1 (amended): for every table whose header and whose rows each contain at
    least one non-empty field, whose header and cell strings have no leading
    or trailing whitespace, whose rows have at least as many values as there
    are headers and whose row ids are the row positions 0, 1, 2, ...,
    parsing the serialized text yields the input table. *)
Theorem parse_generate_roundtrip (t : Table) :
  existsb nonEmpty (headers t) = true →
  Forall (λ row, existsb nonEmpty (values row) = true) (rows t) →
  Forall trimmed (headers t) →
  Forall (λ row, Forall trimmed (values row)) (rows t) →
  Forall (λ row, (length (headers t) ≤ length (values row))%nat) (rows t) →
  id <$> rows t = Z.of_nat <$> seq 0 (length (rows t)) →
  parseCSV (generateCSVContent t) = t.
Proof.
  intros Hhead Hrows Hthead Htrows Hlong Hids.
  unfold parseCSV. rewrite parseCSVRecords_generateCSVContent.
  - destruct t as [hs rs]. simpl in *. f_equal.
    apply list_eq. intros index.
    rewrite list_lookup_imap, list_lookup_fmap.
    destruct (rs !! index) as [row|] eqn:Hrow; simpl; [|done].
    f_equal. destruct row as [rowId vs].
    rewrite Forall_lookup in Hlong. specialize (Hlong _ _ Hrow). simpl in Hlong.
    rewrite padRecord_long by done. f_equal.
    assert ((id <$> rs) !! index = Some rowId) as Hid
      by (by rewrite list_lookup_fmap, Hrow).
    rewrite Hids, list_lookup_fmap in Hid.
    apply lookup_lt_Some in Hrow.
    rewrite lookup_seq_lt in Hid by done. simpl in Hid. congruence.
  - by split.
  - rewrite Forall_forall in *. intros row Hrow. split; auto.
Qed.

(** The round trip on the table of the specification's example. *)
Lemma parse_generate_roundtrip_witness :
  parseCSV (generateCSVContent
    {| headers := [js "Date"; js "RoomNumber"];
       rows := [ {| id := 0; values := [js "1"; js "101 - 150"] |};
                 {| id := 1; values := [js "2"; []] |} ] |})
  = {| headers := [js "Date"; js "RoomNumber"];
       rows := [ {| id := 0; values := [js "1"; js "101 - 150"] |};
                 {| id := 1; values := [js "2"; []] |} ] |}.
Proof.
  apply (parse_generate_roundtrip
    {| headers := [js "Date"; js "RoomNumber"];
       rows := [ {| id := 0; values := [js "1"; js "101 - 150"] |};
                 {| id := 1; values := [js "2"; []] |} ] |}).
  - reflexivity.
  - repeat constructor.
  - repeat constructor.
  - repeat constructor.
  - simpl. repeat constructor.
  - reflexivity.
Defined.

(** ** What the parser returns *)

(** C9: the text of the specification's example parses to the headers
    Date and RoomNumber and to two rows, 1 | 101 - 150 and 2 | (empty): a
    record with one non-empty field is kept, its trailing empty field too. *)
Theorem parse_example :
  parseCSV (js "Date,RoomNumber" ++ [LF] ++ js "1,101 - 150" ++ [LF]
            ++ js "2," ++ [LF])
  = {| headers := [js "Date"; js "RoomNumber"];
       rows := [ {| id := 0; values := [js "1"; js "101 - 150"] |};
                 {| id := 1; values := [js "2"; []] |} ] |}.
Proof. vm_compute. reflexivity. Qed.

(** Rows shorter than the header are padded: no row is shorter. *)
Lemma parseCSV_rows_padded csvText row :
  row ∈ rows (parseCSV csvText) →
  (length (headers (parseCSV csvText)) ≤ length (values row))%nat.
Proof.
  unfold parseCSV. destruct (parseCSVRecords csvText) as [|hs rest]; simpl.
  - by intros ?%elem_of_nil.
  - intros (index & Hrow)%list_elem_of_lookup.
    rewrite list_lookup_imap in Hrow.
    destruct (rest !! index) as [record|]; simpl in Hrow; [|done].
    injection Hrow as <-. simpl. apply padRecord_length.
Qed.

(** C2 fails on the text a / 1,2: the record with two fields under a header
    of one is kept as it is, so the row is longer than the header.  Only the
    shorter records are brought to the length of the header. *)
Theorem parseCSV_keeps_long_rows :
  let t := parseCSV (js "a" ++ [LF] ++ js "1,2" ++ [LF]) in
  t = {| headers := [js "a"];
         rows := [ {| id := 0; values := [js "1"; js "2"] |} ] |}
  ∧ ∃ row, row ∈ rows t ∧ length (values row) ≠ length (headers t).
Proof.
  split; [vm_compute; reflexivity|].
  exists {| id := 0; values := [js "1"; js "2"] |}.
  split; [|by vm_compute]. vm_compute. apply list_elem_of_here.
Qed.

(** *** Every field the parser returns is trimmed *)

Section ParsedFieldsTrimmed.

Implicit Types (records : list (list jsstring)) (currentRecord : list jsstring).

Lemma recordsAt_trimmed records currentRecord field :
  Forall (Forall trimmed) records → Forall trimmed currentRecord →
  Forall (Forall trimmed) (recordsAt records currentRecord field).
Proof.
  intros Hrecords Hrecord. unfold recordsAt, pushRecord.
  destruct (recordPending currentRecord field); [|done].
  destruct (existsb nonEmpty (currentRecord ++ [trim field])); [|done].
  apply Forall_app. split; [done|]. apply Forall_singleton.
  apply Forall_app. split; [done|]. apply Forall_singleton, trim_trimmed.
Qed.

Lemma scan_trimmed_upto n :
  ∀ csvText records currentRecord field inQuotes,
    (length csvText ≤ n)%nat →
    Forall (Forall trimmed) records → Forall trimmed currentRecord →
    Forall (Forall trimmed) (scan csvText records currentRecord field inQuotes).
Proof.
  induction n as [|n IH]; intros csvText records currentRecord field inQuotes
    Hlen Hrecords Hrecord.
  - destruct csvText; [|simpl in Hlen; lia].
    rewrite scan_nil. by apply recordsAt_trimmed.
  - destruct csvText as [|c rest].
    { rewrite scan_nil. by apply recordsAt_trimmed. }
    destruct (scan_cons c rest records currentRecord field inQuotes)
      as (rest' & records' & currentRecord' & field' & inQuotes'
          & -> & Hrest & Hrecords' & Hrecord').
    simpl in Hlen. apply IH.
    + destruct Hrest as [-> | [next ->]]; simpl in *; lia.
    + destruct Hrecords' as [-> | ->]; [done|]. by apply recordsAt_trimmed.
    + destruct Hrecord' as [-> | [-> | ->]]; [done | constructor |].
      apply Forall_app. split; [done|]. apply Forall_singleton, trim_trimmed.
Qed.

Lemma parseCSVRecords_trimmed csvText :
  Forall (Forall trimmed) (parseCSVRecords csvText).
Proof.
  unfold parseCSVRecords. by eapply scan_trimmed_upto; [done|constructor..].
Qed.

Lemma padRecord_trimmed n (record : list jsstring) :
  Forall trimmed record → Forall trimmed (padRecord n record).
Proof.
  intros Hrecord. unfold padRecord. apply Forall_app. split; [done|].
  apply Forall_replicate, trimmed_nil.
Qed.

End ParsedFieldsTrimmed.

(** C10: for every input text, no header and no cell value of the parsed table
    has leading or trailing whitespace; a field written between double quotes
    is trimmed like any other. *)
Theorem parseCSV_fields_trimmed :
  (∀ csvText,
     Forall trimmed (headers (parseCSV csvText))
     ∧ Forall (λ row, Forall trimmed (values row)) (rows (parseCSV csvText)))
  ∧ parseCSV ([QUOTE] ++ js " a " ++ [QUOTE; COMMA; QUOTE] ++ js "b " ++ [QUOTE; LF])
    = {| headers := [js "a"; js "b"]; rows := [] |}.
Proof.
  split; [|vm_compute; reflexivity].
  intros csvText. unfold parseCSV.
  pose proof (parseCSVRecords_trimmed csvText) as Hrecords.
  destruct (parseCSVRecords csvText) as [|hs rest]; simpl.
  - split; constructor.
  - apply Forall_cons in Hrecords as [Hhs Hrest]. split; [done|].
    apply Forall_lookup. intros index row Hrow.
    rewrite list_lookup_imap in Hrow.
    destruct (rest !! index) as [record|] eqn:Hrecord; simpl in Hrow; [|done].
    injection Hrow as <-. simpl. apply padRecord_trimmed.
    rewrite Forall_lookup in Hrest. by eapply Hrest.
Qed.

(** ** Row ids *)

Section RowIds.

Implicit Types (l : list Z) (rs : list Row) (t : Table) (st : EditorState).

Lemma foldr_max_lower l : -1 ≤ foldr Z.max (-1) l.
Proof. induction l as [|i l IH]; simpl; lia. Qed.

Lemma foldr_max_upper l i : i ∈ l → i ≤ foldr Z.max (-1) l.
Proof.
  induction l as [|j l IH]; simpl.
  - by intros ?%elem_of_nil.
  - intros [-> | Hin]%elem_of_cons; [lia|]. specialize (IH Hin). lia.
Qed.

Lemma foldr_max_attained l :
  foldr Z.max (-1) l = -1 ∨ foldr Z.max (-1) l ∈ l.
Proof.
  induction l as [|j l IH]; simpl; [by left|].
  destruct (Z.max_spec j (foldr Z.max (-1) l)) as [[_ ->] | [_ ->]].
  - destruct IH as [IH | IH]; [by left | right; by constructor].
  - right. constructor.
Qed.

Lemma newRowId_above t i : i ∈ id <$> rows t → i < newRowId t.
Proof. intros Hi%foldr_max_upper. unfold newRowId. lia. Qed.

Lemma newRowId_fresh t : newRowId t ∉ id <$> rows t.
Proof. intros Hin%newRowId_above. lia. Qed.

Lemma parseCSV_ids csvText :
  id <$> rows (parseCSV csvText)
  = Z.of_nat <$> seq 0 (length (rows (parseCSV csvText))).
Proof.
  unfold parseCSV. destruct (parseCSVRecords csvText) as [|hs rest]; [done|].
  simpl. apply list_eq. intros index.
  rewrite !list_lookup_fmap, list_lookup_imap, length_imap.
  destruct (rest !! index) as [record|] eqn:Hrecord; simpl.
  - apply lookup_lt_Some in Hrecord. by rewrite lookup_seq_lt.
  - apply lookup_ge_None in Hrecord. by rewrite lookup_seq_ge.
Qed.

Lemma parseCSV_ids_NoDup csvText : NoDup (id <$> rows (parseCSV csvText)).
Proof.
  rewrite parseCSV_ids. apply (NoDup_fmap_2 _), NoDup_seq.
Qed.

Lemma addRow_ids st :
  id <$> rows (currentData (addRow st))
  = (id <$> rows (currentData st)) ++ [newRowId (currentData st)].
Proof. simpl. by rewrite fmap_app. Qed.

Lemma addRow_ids_NoDup st :
  NoDup (id <$> rows (currentData st)) →
  NoDup (id <$> rows (currentData (addRow st))).
Proof.
  intros Hnodup. rewrite addRow_ids. apply NoDup_app. split_and!; [done| |].
  - intros i Hi [->|[]%elem_of_nil]%elem_of_cons.
    by apply newRowId_fresh in Hi.
  - apply NoDup_singleton.
Qed.

Lemma deleteSelectedRow_ids_NoDup st selectedRowIds confirmed :
  NoDup (id <$> rows (currentData st)) →
  NoDup (id <$> rows (currentData (deleteSelectedRow st selectedRowIds confirmed))).
Proof.
  intros Hnodup. unfold deleteSelectedRow.
  case_bool_decide; [done|]. destruct confirmed; [|done]. simpl.
  apply (sublist_NoDup _ (id <$> rows (currentData st))); [done|].
  apply (fmap_sublist id), sublist_filter.
Qed.

Lemma step_ids_NoDup st a :
  NoDup (id <$> rows (currentData st)) →
  NoDup (id <$> rows (currentData (step st a))).
Proof.
  destruct a; simpl;
    [apply addRow_ids_NoDup | apply deleteSelectedRow_ids_NoDup].
Qed.

(** The first row with a given id. *)
Lemma list_find_first_row rs before row after :
  rs = before ++ row :: after →
  id row ∉ id <$> before →
  list_find (λ r, id r = id row) rs = Some (length before, row).
Proof.
  intros -> Hfirst. apply list_find_Some. split_and!.
  - by rewrite list_lookup_middle.
  - done.
  - intros j r Hr Hj Hid. rewrite lookup_app_l in Hr by done.
    apply Hfirst. rewrite <- Hid.
    apply list_elem_of_fmap_2. by eapply list_elem_of_lookup_2.
Qed.

Lemma findRow_NoDup rs row :
  NoDup (id <$> rs) → row ∈ rs → findRow (id row) rs = Some row.
Proof.
  intros Hnodup [k Hk]%list_elem_of_lookup. unfold findRow.
  rewrite (proj2 (list_find_Some (λ r, id r = id row) rs k row)); [done|].
  split_and!; [done..|]. intros j r Hj Hlt Hid.
  assert (j = k); [|lia].
  apply (NoDup_lookup (id <$> rs) j k (id row)); [done|..];
    rewrite list_lookup_fmap; [by rewrite Hj; simpl; f_equal | by rewrite Hk].
Qed.

Lemma handleCellChange_found st before row after colIndex newValue :
  rows (currentData st) = before ++ row :: after →
  id row ∉ id <$> before →
  handleCellChange st (id row) colIndex newValue
  = checkForChanges
      {| originalData := originalData st;
         currentData :=
           {| headers := headers (currentData st);
              rows := before
                      ++ {| id := id row;
                            values := <[colIndex := newValue]> (values row) |}
                      :: after |};
         currentFile := currentFile st;
         hasChanges := hasChanges st |}.
Proof.
  intros Hrows Hfirst. unfold handleCellChange.
  rewrite (list_find_first_row _ before row after Hrows Hfirst), Hrows.
  by rewrite insert_app_r_alt, Nat.sub_diag.
Qed.

End RowIds.

(** C5: addRow appends exactly one row; its id is one more than the largest of
    the ids in the table and -1, its values are as many empty strings as there
    are headers; nothing else changes and the operation is total.  With ids
    0, 1, 2 the new id is 3, and with ids 0, 2 it is 3 as well. *)
Theorem addRow_appends_fresh_row :
  (∀ st : EditorState,
     ∃ largest,
       (largest = -1 ∨ largest ∈ id <$> rows (currentData st))
       ∧ -1 ≤ largest
       ∧ (∀ i, i ∈ id <$> rows (currentData st) → i ≤ largest)
       ∧ currentData (addRow st)
         = {| headers := headers (currentData st);
              rows := rows (currentData st)
                      ++ [ {| id := largest + 1;
                              values := replicate (length (headers (currentData st))) [] |} ] |}
       ∧ originalData (addRow st) = originalData st)
  ∧ (∀ hs v0 v1 v2,
       newRowId {| headers := hs;
                   rows := [ {| id := 0; values := v0 |};
                             {| id := 1; values := v1 |};
                             {| id := 2; values := v2 |} ] |} = 3)
  ∧ (∀ hs v0 v2,
       newRowId {| headers := hs;
                   rows := [ {| id := 0; values := v0 |};
                             {| id := 2; values := v2 |} ] |} = 3).
Proof.
  split_and!; [|done..].
  intros st. exists (foldr Z.max (-1) (id <$> rows (currentData st))).
  split_and!.
  - apply foldr_max_attained.
  - apply foldr_max_lower.
  - apply foldr_max_upper.
  - done.
  - done.
Qed.

(** ** Ids over a session *)

(** C3, as stated, fails: with the two rows 0 and 1 of the example loaded,
    deleting row 1 and adding a row gives the new row the id 1 again. *)
Lemma deleted_id_is_reused : ¬ idsNeverReused.
Proof.
  intros Hclaim.
  specialize (Hclaim exampleState exampleFile exampleText
              [DeleteRows [1] true; AddRow]).
  destruct Hclaim as [Hfresh _]. apply Hfresh.
  vm_compute. apply list_elem_of_here.
Qed.

(** C3 (amended): across any sequence of addRow and deleteRows operations of a
    session that starts from a parsed table, the ids of the rows in the table
    are pairwise distinct, and addRow assigns an id greater than every id
    then in the table. *)
Theorem session_ids_distinct (st0 : EditorState) (filename csvText : jsstring)
    (actions : list Action) :
  let st := foldl step (loadFileData st0 filename (Some csvText)) actions in
  NoDup (id <$> rows (currentData st))
  ∧ id <$> rows (currentData (addRow st))
    = (id <$> rows (currentData st)) ++ [newRowId (currentData st)]
  ∧ ∀ i, i ∈ id <$> rows (currentData st) → i < newRowId (currentData st).
Proof.
  cbv zeta. split_and!.
  - assert (NoDup (id <$> rows (currentData
                                  (loadFileData st0 filename (Some csvText)))))
      as Hstart by apply parseCSV_ids_NoDup.
    revert Hstart. generalize (loadFileData st0 filename (Some csvText)).
    induction actions as [|a actions IH]; intros st Hst; simpl; [done|].
    by apply IH, step_ids_NoDup.
  - apply addRow_ids.
  - apply newRowId_above.
Qed.

(** ** Editing a cell *)

(** C8: a cell change for a row id that no row of the current table has
    leaves the editor state as it is: no value, no row and no flag changes,
    and nothing fails.  When a row has the id, the first such row gets the
    new value at the given column, its other values, every other row and the
    original table stay, and hasChanges is computed anew. *)
Theorem handleCellChange_by_row_id (st : EditorState) (rowId : Z)
    (colIndex : nat) (newValue : jsstring) :
  (rowId ∉ id <$> rows (currentData st) →
   handleCellChange st rowId colIndex newValue = st)
  ∧ (∀ before row after,
       rows (currentData st) = before ++ row :: after →
       id row = rowId →
       rowId ∉ id <$> before →
       (colIndex < length (values row))%nat →
       ∃ newValues,
         let current' :=
           {| headers := headers (currentData st);
              rows := before ++ {| id := rowId; values := newValues |} :: after |} in
         handleCellChange st rowId colIndex newValue
         = {| originalData := originalData st;
              currentData := current';
              currentFile := currentFile st;
              hasChanges := bool_decide (originalData st ≠ current') |}
         ∧ length newValues = length (values row)
         ∧ newValues !! colIndex = Some newValue
         ∧ ∀ j, j ≠ colIndex → newValues !! j = values row !! j).
Proof.
  split.
  - intros Habsent. unfold handleCellChange.
    destruct (list_find _ _) as [[index row]|] eqn:Hfind; [|done].
    apply list_find_Some in Hfind as (Hrow & Hid & _).
    destruct Habsent. rewrite <- Hid.
    apply list_elem_of_fmap_2. by eapply list_elem_of_lookup_2.
  - intros before row after Hrows <- Hfirst Hcol.
    exists (<[colIndex := newValue]> (values row)).
    rewrite (handleCellChange_found _ before row after) by done.
    split_and!; [done | apply length_insert | by apply list_lookup_insert_eq |].
    intros j Hj. by apply list_lookup_insert_ne.
Qed.

(** The two cases on the example: no row has the id 7; row 0 has its second
    value replaced. *)
Lemma handleCellChange_by_row_id_witness :
  handleCellChange exampleState 7 1 (js "x") = exampleState
  ∧ ∃ newValues,
      currentData (handleCellChange exampleState 0 1 (js "101-199"))
      = {| headers := [js "Date"; js "RoomNumber"];
           rows := [ {| id := 0; values := newValues |};
                     {| id := 1; values := [js "2"; []] |} ] |}
      ∧ newValues !! 1%nat = Some (js "101-199").
Proof.
  split.
  - apply (proj1 (handleCellChange_by_row_id exampleState 7 1 (js "x"))).
    apply (bool_decide_unpack _). vm_compute. exact I.
  - destruct (proj2 (handleCellChange_by_row_id exampleState 0 1 (js "101-199"))
                []
                {| id := 0; values := [js "1"; js "101-150"] |}
                [ {| id := 1; values := [js "2"; []] |} ])
      as (newValues & Hstate & _ & Hnew & _).
    + reflexivity.
    + reflexivity.
    + apply (bool_decide_unpack _). vm_compute. exact I.
    + simpl. lia.
    + exists newValues. split; [|exact Hnew]. rewrite Hstate. reflexivity.
Defined.

(** ** The change summary *)

Section Changes.

Implicit Types (st : EditorState) (rs : list Row) (c : Change).

Lemma elem_of_indexed rs index row :
  (index, row) ∈ imap pair rs ↔ rs !! index = Some row.
Proof.
  rewrite elem_of_lookup_imap. split.
  - by intros (i & r & [= -> ->] & Hr).
  - intros Hr. by exists index, row.
Qed.

Lemma findRow_Some rowId rs originalRow :
  findRow rowId rs = Some originalRow ↔
  ∃ k, rs !! k = Some originalRow ∧ id originalRow = rowId
       ∧ ∀ j r, rs !! j = Some r → (j < k)%nat → id r ≠ rowId.
Proof.
  unfold findRow. rewrite fmap_Some. split.
  - intros ([k r] & Hfind%list_find_Some & ->). by exists k.
  - intros (k & Hfind). exists (k, originalRow).
    split; [by apply list_find_Some | done].
Qed.

Lemma omap_none {A B} (f : A → option B) (l : list A) :
  (∀ x, x ∈ l → f x = None) → omap f l = [].
Proof.
  induction l as [|x l IH]; intros Hnone; [done|]. simpl.
  rewrite (Hnone x) by constructor.
  apply IH. intros y Hy. apply Hnone. by constructor.
Qed.

Lemma added_change_iff st c :
  c ∈ omap (λ '(index, row),
              if decide (id row ∈ (list_to_set (id <$> rows (originalData st)) : gset Z))
              then None else Some (addedChange index row))
           (imap pair (rows (currentData st)))
  ↔ ∃ index row,
      rows (currentData st) !! index = Some row
      ∧ (id row ∉ id <$> rows (originalData st))
      ∧ c = addedChange index row.
Proof.
  rewrite list_elem_of_omap. split.
  - intros ([index row] & Hrow%elem_of_indexed & Hc).
    case_decide as Hid; [done|]. injection Hc as <-.
    rewrite elem_of_list_to_set in Hid. by exists index, row.
  - intros (index & row & Hrow & Hid & ->). exists (index, row).
    split; [by apply elem_of_indexed|].
    rewrite decide_False; [done|]. by rewrite elem_of_list_to_set.
Qed.

Lemma deleted_change_iff st c :
  c ∈ omap (λ row,
              if decide (id row ∈ (list_to_set (id <$> rows (currentData st)) : gset Z))
              then None else Some (deletedChange row))
           (rows (originalData st))
  ↔ ∃ row,
      row ∈ rows (originalData st)
      ∧ (id row ∉ id <$> rows (currentData st))
      ∧ c = deletedChange row.
Proof.
  rewrite list_elem_of_omap. split.
  - intros (row & Hrow & Hc).
    case_decide as Hid; [done|]. injection Hc as <-.
    rewrite elem_of_list_to_set in Hid. by exists row.
  - intros (row & Hrow & Hid & ->). exists row. split; [done|].
    rewrite decide_False; [done|]. by rewrite elem_of_list_to_set.
Qed.

Lemma modified_change_iff st c :
  c ∈ omap (λ '(index, currentRow),
              match findRow (id currentRow) (rows (originalData st)) with
              | Some originalRow =>
                  if decide (values currentRow ≠ values originalRow)
                  then Some (modifiedChange index currentRow) else None
              | None => None
              end)
           (imap pair (rows (currentData st)))
  ↔ ∃ index row k originalRow,
      rows (currentData st) !! index = Some row
      ∧ rows (originalData st) !! k = Some originalRow
      ∧ id originalRow = id row
      ∧ (∀ j r, rows (originalData st) !! j = Some r → (j < k)%nat →
                id r ≠ id row)
      ∧ values row ≠ values originalRow
      ∧ c = modifiedChange index row.
Proof.
  rewrite list_elem_of_omap. split.
  - intros ([index row] & Hrow%elem_of_indexed & Hc).
    destruct (findRow _ _) as [originalRow|] eqn:Hfind; [|done].
    case_decide as Hvalues; [|done]. injection Hc as <-.
    apply findRow_Some in Hfind as (k & Hk & Hid & Hfirst).
    by exists index, row, k, originalRow.
  - intros (index & row & k & originalRow & Hrow & Hk & Hid & Hfirst
            & Hvalues & ->).
    exists (index, row). split; [by apply elem_of_indexed|].
    rewrite (proj2 (findRow_Some (id row) _ originalRow)) by by exists k.
    by rewrite decide_True.
Qed.

(** One cell of a table that has no change yet is edited. *)
Lemma calculateChanges_single_edit st index row colIndex newValue :
  currentData st = originalData st →
  NoDup (id <$> rows (originalData st)) →
  rows (currentData st) !! index = Some row →
  (colIndex < length (values row))%nat →
  values row !! colIndex ≠ Some newValue →
  calculateChanges (handleCellChange st (id row) colIndex newValue)
  = [ modifiedChange index
        {| id := id row; values := <[colIndex := newValue]> (values row) |} ].
Proof.
  intros Hsame Hnodup Hrow Hcol Hvalue.
  pose proof (take_drop_middle _ _ _ Hrow) as Hsplit. symmetry in Hsplit.
  assert (length (take index (rows (currentData st))) = index) as Hindex.
  { apply length_take_le, Nat.lt_le_incl. by eapply lookup_lt_Some. }
  revert Hsplit Hindex.
  generalize (take index (rows (currentData st))) as before.
  generalize (drop (S index) (rows (currentData st))) as after.
  intros after before Hsplit <-.
  rewrite <- Hsame in Hnodup. rewrite Hsplit in Hnodup.
  assert (id row ∉ id <$> before) as Hfirst.
  { rewrite fmap_app in Hnodup. apply NoDup_app in Hnodup as (_ & Hdisj & _).
    intros Hin. apply (Hdisj _ Hin). rewrite fmap_cons. constructor. }
  rewrite (handleCellChange_found _ before row after) by done.
  unfold calculateChanges. simpl. rewrite <- Hsame, Hsplit.
  set (row' := {| id := id row; values := <[colIndex:=newValue]> (values row) |}).
  set (original := before ++ row :: after) in *.
  assert (∀ r, r ∈ before ++ row' :: after → id r ∈ id <$> original) as Hids.
  { intros r Hr. unfold original. rewrite fmap_app, fmap_cons.
    apply elem_of_app in Hr as [Hr | Hr];
      [apply elem_of_app; left; by apply list_elem_of_fmap_2|].
    apply elem_of_app. right.
    apply elem_of_cons in Hr as [-> | Hr]; [constructor|].
    constructor. by apply list_elem_of_fmap_2. }
  rewrite (omap_none _ (imap pair (before ++ row' :: after))).
  2: { intros [j r] Hr%elem_of_indexed%list_elem_of_lookup_2.
       rewrite decide_True; [done|]. rewrite elem_of_list_to_set. by apply Hids. }
  rewrite (omap_none _ original).
  2: { intros r Hr. rewrite decide_True; [done|].
       rewrite elem_of_list_to_set, fmap_app, fmap_cons.
       change (id row') with (id row). rewrite <- fmap_cons, <- fmap_app.
       by apply list_elem_of_fmap_2. }
  simpl. rewrite imap_app, omap_app, imap_cons. simpl.
  assert (∀ r, r ∈ original → findRow (id r) original = Some r) as Hfind
    by (intros r; by apply findRow_NoDup).
  rewrite (omap_none _ (imap pair before)).
  2: { intros [j r] Hr%elem_of_indexed%list_elem_of_lookup_2.
       rewrite Hfind by (apply elem_of_app; by left).
       by rewrite decide_False by (intros Hne; by apply Hne). }
  rewrite (Hfind row) by (apply elem_of_app; right; constructor).
  rewrite decide_True.
  2: { simpl. intros Heq. apply Hvalue. rewrite <- Heq.
       by apply list_lookup_insert_eq. }
  rewrite (omap_none _ (imap _ after)).
  2: { intros [j r] (i & r' & [= -> ->] & Hr%list_elem_of_lookup_2)%elem_of_lookup_imap.
       rewrite Hfind by (apply elem_of_app; right; by constructor).
       by rewrite decide_False by (intros Hne; by apply Hne). }
  simpl. by rewrite Nat.add_0_r.
Qed.

End Changes.

(** C4: the change summary goes by the ids.  A change is in it exactly when it
    is the change of type added, labelled with the position and the first two
    values, of a row of the current table whose id no original row has, the
    change of type deleted, labelled with the first two values, of an
    original row whose id no current row has, or the change of type modified
    of a current row whose values differ, as sequences of strings, from
    those of the first original row with its id.  In particular, when one
    cell of a row of an unchanged table gets another value, the summary is
    the one modified change of that row. *)
Theorem calculateChanges_by_ids :
  (∀ (st : EditorState) (c : Change),
     c ∈ calculateChanges st ↔
       (∃ index row,
          rows (currentData st) !! index = Some row
          ∧ (id row ∉ id <$> rows (originalData st))
          ∧ c = {| type := added;
                   description :=
                     js "Row " ++ numberToString (index + 1) ++ js ": "
                     ++ join (js ", ") (take 2 (values row)) ++ js "..." |})
       ∨ (∃ row,
            row ∈ rows (originalData st)
            ∧ (id row ∉ id <$> rows (currentData st))
            ∧ c = {| type := deleted;
                     description :=
                       js "Row with data: "
                       ++ join (js ", ") (take 2 (values row)) ++ js "..." |})
       ∨ (∃ index row k originalRow,
            rows (currentData st) !! index = Some row
            ∧ rows (originalData st) !! k = Some originalRow
            ∧ id originalRow = id row
            ∧ (∀ j r, rows (originalData st) !! j = Some r → (j < k)%nat →
                      id r ≠ id row)
            ∧ values row ≠ values originalRow
            ∧ c = {| type := modified;
                     description :=
                       js "Row " ++ numberToString (index + 1) ++ js ": "
                       ++ join (js ", ") (take 2 (values row)) ++ js "..." |}))
  ∧ (∀ (st : EditorState) index row colIndex newValue,
       currentData st = originalData st →
       NoDup (id <$> rows (originalData st)) →
       rows (currentData st) !! index = Some row →
       (colIndex < length (values row))%nat →
       values row !! colIndex ≠ Some newValue →
       calculateChanges (handleCellChange st (id row) colIndex newValue)
       = [ {| type := modified;
              description :=
                js "Row " ++ numberToString (index + 1) ++ js ": "
                ++ join (js ", ")
                        (take 2 (<[colIndex := newValue]> (values row)))
                ++ js "..." |} ]).
Proof.
  split.
  - intros st c. unfold calculateChanges. rewrite !elem_of_app.
    rewrite added_change_iff, deleted_change_iff, modified_change_iff.
    unfold addedChange, deletedChange, modifiedChange, rowLabel, summary.
    reflexivity.
  - intros st index row colIndex newValue Hsame Hnodup Hrow Hcol Hvalue.
    by rewrite (calculateChanges_single_edit st index row).
Qed.

(** The example of the specification: the second value of row 0 goes from
    101-150 to 101-199, and the summary is the one change
    modified, Row 1: 1, 101-199... *)
Lemma calculateChanges_by_ids_witness :
  calculateChanges (handleCellChange exampleState 0 1 (js "101-199"))
  = [ {| type := modified; description := js "Row 1: 1, 101-199..." |} ].
Proof.
  apply (proj2 calculateChanges_by_ids exampleState 0%nat
           {| id := 0; values := [js "1"; js "101-150"] |} 1%nat (js "101-199")).
  - reflexivity.
  - apply (bool_decide_unpack _). vm_compute. exact I.
  - reflexivity.
  - simpl. lia.
  - simpl. discriminate.
Defined.


(** ** The cache controller *)

Section CacheController.

Import ServiceWorker.

Implicit Types (name key tag : jsstring) (response : Response)
  (caches : CacheStorage) (bucket : list N * gmap (list N) Response).

Lemma caches_match_None key caches name :
  caches_match key caches = None → bucket_lookup name key caches = None.
Proof.
  induction caches as [|[n cache] caches IH]; simpl; [done|].
  destruct (cache !! key) eqn:Hkey; [done|]. intros Hrest.
  case_decide; [done | by apply IH].
Qed.

Lemma bucket_lookup_put name key response caches :
  name ∈ caches_keys caches →
  bucket_lookup name key (cache_put name key response caches) = Some response.
Proof.
  unfold caches_keys.
  induction caches as [|[n cache] caches IH]; simpl.
  - by intros ?%elem_of_nil.
  - intros Hin. case_decide as Hn; simpl.
    + rewrite decide_True by done. apply lookup_insert_eq.
    + rewrite decide_False by done. apply IH.
      apply elem_of_cons in Hin as [Heq | Hin]; [by destruct Hn | done].
Qed.

Lemma caches_open_keys name caches :
  name ∈ caches_keys (caches_open name caches).
Proof.
  unfold caches_open. case_decide; [done|].
  unfold caches_keys. rewrite fmap_app. apply elem_of_app. right. constructor.
Qed.

(** Visiting a list of names deletes the buckets that bear one of them,
    the current one excepted. *)
Lemma evict_elem_of tag names caches bucket :
  bucket ∈ foldl (λ caches cacheName,
                    if decide (cacheName ≠ tag)
                    then caches_delete cacheName caches else caches)
                 caches names
  ↔ bucket ∈ caches ∧ (bucket.1 = tag ∨ bucket.1 ∉ names).
Proof.
  revert caches. induction names as [|n names IH]; intros caches; simpl.
  - split; [|by intros [? _]]. intros Hin. split; [done|]. right.
    apply not_elem_of_nil.
  - rewrite IH. case_decide as Hn.
    + unfold caches_delete. rewrite list_elem_of_filter, not_elem_of_cons.
      split.
      * intros [[Hne Hin] [Htag | Hnames]]; eauto.
      * intros [Hin [Htag | [Hne Hnames]]]; split_and?; eauto. congruence.
    + subst n. rewrite not_elem_of_cons. split.
      * intros [Hin [Htag | Hnames]]; [by eauto|].
        destruct (decide (bucket.1 = tag)); eauto.
      * intros [Hin [Htag | [_ Hnames]]]; eauto.
Qed.

(** C6: the fetch handler answers from the cache on a hit and leaves the cache
    as it is.  On a miss it asks the network; a response that arrives is
    handed on, and the current bucket holds it for the request afterwards
    exactly when its status is 200 and its type is basic, the cache being
    untouched otherwise.  When the network fails on a miss, the cache stays
    and the answer is what the cache holds for /index.html when the
    destination of the request is document, so a cached shell is returned
    exactly for such requests, and no response otherwise. *)
Theorem onFetch_cache_first (tag : jsstring)
    (network : Request → option Response) (caches : CacheStorage)
    (request : Request) :
  (∀ cached,
     caches_match (url request) caches = Some cached →
     onFetch tag network caches request = (Some cached, caches))
  ∧ (∀ response,
       caches_match (url request) caches = None →
       network request = Some response →
       (onFetch tag network caches request).1 = Some response
       ∧ (bucket_lookup tag (url request) (onFetch tag network caches request).2
          = Some response
          ↔ status response = 200 ∧ type response = js "basic")
       ∧ (¬ (status response = 200 ∧ type response = js "basic") →
          (onFetch tag network caches request).2 = caches))
  ∧ (caches_match (url request) caches = None →
     network request = None →
     (onFetch tag network caches request).2 = caches
     ∧ (destination request = js "document" →
        (onFetch tag network caches request).1
        = caches_match (js "/index.html") caches)
     ∧ (destination request ≠ js "document" →
        (onFetch tag network caches request).1 = None)
     ∧ (∀ shell,
          caches_match (js "/index.html") caches = Some shell →
          ((onFetch tag network caches request).1 = Some shell
           ↔ destination request = js "document"))).
Proof.
  unfold onFetch. split_and!.
  - by intros cached ->.
  - intros response Hmiss Hnet. rewrite Hmiss, Hnet.
    destruct (decide (status response = 200)) as [Hstatus | Hstatus];
      destruct (decide (type response = js "basic")) as [Htype | Htype].
    + rewrite !bool_decide_eq_false_2 by (intros Hne; by apply Hne). simpl.
      split_and!; [done | | by intros []].
      split; [done|]. intros _.
      apply bucket_lookup_put, caches_open_keys.
    + rewrite (bool_decide_eq_true_2 (type response ≠ js "basic")) by done.
      rewrite orb_true_r. simpl. split_and!; [done | | done].
      split; [|by intros [_ ?]]. intros Hheld.
      by rewrite (caches_match_None _ _ tag Hmiss) in Hheld.
    + rewrite (bool_decide_eq_true_2 (status response ≠ 200)) by done. simpl.
      split_and!; [done | | done].
      split; [|by intros [? _]]. intros Hheld.
      by rewrite (caches_match_None _ _ tag Hmiss) in Hheld.
    + rewrite (bool_decide_eq_true_2 (status response ≠ 200)) by done. simpl.
      split_and!; [done | | done].
      split; [|by intros [? _]]. intros Hheld.
      by rewrite (caches_match_None _ _ tag Hmiss) in Hheld.
  - intros -> ->. case_bool_decide as Hdest; simpl.
    + split_and!; [done..|]. intros shell ->. by split.
    + split_and!; [done..|]. intros shell _. by split.
Qed.

(** A stored miss, a hit and a failed navigation on concrete caches: the
    script is fetched and stored, then served from the cache, and a page
    that cannot be fetched is answered with the cached shell. *)
Lemma onFetch_cache_first_witness :
  bucket_lookup CACHE_NAME (js "/app.js")
    (onFetch CACHE_NAME (λ _, Some scriptResponse) [] scriptRequest).2
  = Some scriptResponse
  ∧ onFetch CACHE_NAME (λ _, None)
      [(CACHE_NAME, {[ js "/app.js" := scriptResponse ]})] scriptRequest
    = (Some scriptResponse,
       [(CACHE_NAME, {[ js "/app.js" := scriptResponse ]})])
  ∧ (onFetch CACHE_NAME (λ _, None)
       [(CACHE_NAME, {[ js "/index.html" := shellResponse ]})] pageRequest).1
    = Some shellResponse.
Proof.
  split_and!.
  - apply (proj1 (proj2 (onFetch_cache_first CACHE_NAME
                           (λ _, Some scriptResponse) [] scriptRequest))
                 scriptResponse).
    + reflexivity.
    + reflexivity.
    + split; reflexivity.
  - apply (proj1 (onFetch_cache_first CACHE_NAME (λ _, None)
                    [(CACHE_NAME, {[ js "/app.js" := scriptResponse ]})]
                    scriptRequest)).
    vm_compute. reflexivity.
  - apply (proj2 (proj2 (onFetch_cache_first CACHE_NAME (λ _, None)
                    [(CACHE_NAME, {[ js "/index.html" := shellResponse ]})]
                    pageRequest))).
    + vm_compute. reflexivity.
    + reflexivity.
    + vm_compute. reflexivity.
    + reflexivity.
Defined.

(** C7: in the activate phase a bucket of the cache storage is kept exactly
    when its name is the current version tag, and every other bucket is
    deleted; nothing is added.  With the tag app-v2, a bucket app-v1 goes and
    the bucket app-v2 stays. *)
Theorem onActivate_keeps_current_only :
  (∀ tag caches bucket,
     bucket ∈ caches → (bucket ∈ onActivate tag caches ↔ bucket.1 = tag))
  ∧ (∀ tag caches bucket, bucket ∈ onActivate tag caches → bucket ∈ caches)
  ∧ (∀ old current : gmap (list N) Response,
       onActivate (js "app-v2") [(js "app-v1", old); (js "app-v2", current)]
       = [(js "app-v2", current)]).
Proof.
  split_and!.
  - intros tag caches bucket Hin. unfold onActivate. rewrite evict_elem_of.
    split.
    + intros [_ [Htag | Hnames]]; [done|]. destruct Hnames.
      by apply list_elem_of_fmap_2.
    + intros Htag. split; [done | by left].
  - intros tag caches bucket. unfold onActivate. rewrite evict_elem_of.
    by intros [Hin _].
  - intros old current. reflexivity.
Qed.

(** The old bucket goes: it is not in the storage after the activation. *)
Lemma onActivate_keeps_current_only_witness :
  (js "app-v1", ∅) ∉ onActivate (js "app-v2")
                       [(js "app-v1", ∅); (js "app-v2", ∅)].
Proof.
  intros Hkept.
  apply (proj1 onActivate_keeps_current_only (js "app-v2")
           [(js "app-v1", ∅); (js "app-v2", ∅)] (js "app-v1", ∅)) in Hkept.
  - discriminate Hkept.
  - apply list_elem_of_here.
Defined.

End CacheController.

(** * Further properties of the code *)

(** ** More steps of the scan *)

Section MoreScanSteps.

Implicit Types (rest field : jsstring) (records : list (list jsstring))
  (currentRecord : list jsstring).

Lemma scan_carriage_return rest records currentRecord field :
  scan (CR :: rest) records currentRecord field false
  = if recordPending currentRecord field
    then scan (afterCarriageReturn rest)
              (pushRecord records currentRecord field) [] [] false
    else scan (afterCarriageReturn rest) records currentRecord field false.
Proof.
  change (scan (CR :: rest) records currentRecord field false)
    with (match rest with
          | next :: rest' =>
              if N.eqb next LF
              then scan rest'
                     (if recordPending currentRecord field
                      then pushRecord records currentRecord field else records)
                     (if recordPending currentRecord field then [] else currentRecord)
                     (if recordPending currentRecord field then [] else field)
                     false
              else scan rest
                     (if recordPending currentRecord field
                      then pushRecord records currentRecord field else records)
                     (if recordPending currentRecord field then [] else currentRecord)
                     (if recordPending currentRecord field then [] else field)
                     false
          | [] => scan rest
                    (if recordPending currentRecord field
                     then pushRecord records currentRecord field else records)
                    (if recordPending currentRecord field then [] else currentRecord)
                    (if recordPending currentRecord field then [] else field)
                    false
          end).
  unfold afterCarriageReturn.
  destruct rest as [|next rest]; [by destruct (recordPending currentRecord field)|].
  by destruct (recordPending currentRecord field), (N.eqb next LF).
Qed.

End MoreScanSteps.

(** ** Records of the parser are never blank *)

Section ParsedRecordsSolid.

Implicit Types (records : list (list jsstring)) (currentRecord : list jsstring).

Lemma recordsAt_notBlank records currentRecord field :
  Forall notBlank records →
  Forall notBlank (recordsAt records currentRecord field).
Proof.
  intros Hrecords. unfold recordsAt, pushRecord.
  destruct (recordPending currentRecord field); [|done].
  destruct (existsb nonEmpty (currentRecord ++ [trim field])) eqn:Hsome; [|done].
  apply Forall_app. split; [done|]. by apply Forall_singleton.
Qed.

Lemma scan_notBlank_upto n :
  ∀ csvText records currentRecord field inQuotes,
    (length csvText ≤ n)%nat →
    Forall notBlank records →
    Forall notBlank (scan csvText records currentRecord field inQuotes).
Proof.
  induction n as [|n IH]; intros csvText records currentRecord field inQuotes
    Hlen Hrecords.
  - destruct csvText; [|simpl in Hlen; lia].
    rewrite scan_nil. by apply recordsAt_notBlank.
  - destruct csvText as [|c rest].
    { rewrite scan_nil. by apply recordsAt_notBlank. }
    destruct (scan_cons c rest records currentRecord field inQuotes)
      as (rest' & records' & currentRecord' & field' & inQuotes'
          & -> & Hrest & Hrecords' & _).
    apply IH.
    + destruct Hrest as [-> | [next ->]]; simpl in *; lia.
    + destruct Hrecords' as [-> | ->]; [done|]. by apply recordsAt_notBlank.
Qed.

Lemma parseCSVRecords_notBlank csvText :
  Forall notBlank (parseCSVRecords csvText).
Proof.
  unfold parseCSVRecords. by eapply scan_notBlank_upto; [done|constructor].
Qed.

Lemma padRecord_notBlank n (record : list jsstring) :
  notBlank record → notBlank (padRecord n record).
Proof.
  unfold notBlank, padRecord. intros Hrecord.
  by rewrite existsb_app, Hrecord.
Qed.

(** The table of a text with a record: header and rows are solid. *)
Lemma parseCSV_solid csvText :
  parseCSVRecords csvText ≠ [] →
  solid (headers (parseCSV csvText))
  ∧ Forall (λ row, solid (values row)) (rows (parseCSV csvText)).
Proof.
  intros Hsome. unfold parseCSV.
  pose proof (parseCSVRecords_notBlank csvText) as Hnotblank.
  pose proof (parseCSVRecords_trimmed csvText) as Htrimmed.
  destruct (parseCSVRecords csvText) as [|hs rest]; [done|]. simpl.
  apply Forall_cons in Hnotblank as [Hhs Hrest].
  apply Forall_cons in Htrimmed as [Hths Htrest].
  split; [done|].
  apply Forall_lookup. intros index row Hrow.
  rewrite list_lookup_imap in Hrow.
  destruct (rest !! index) as [record|] eqn:Hrecord; simpl in Hrow; [|done].
  injection Hrow as <-. simpl. split.
  - apply padRecord_notBlank. rewrite Forall_lookup in Hrest. by eapply Hrest.
  - apply padRecord_trimmed. rewrite Forall_lookup in Htrest. by eapply Htrest.
Qed.

End ParsedRecordsSolid.


(** X2: the parser returns no blank record, whatever the text: every record
    has a field that is not empty, so the header of a parsed table has one
    unless the table is empty, and every row has one. *)
Theorem parsed_records_not_blank (csvText : jsstring) :
  Forall notBlank (parseCSVRecords csvText)
  ∧ (parseCSV csvText = {| headers := []; rows := [] |}
     ∨ notBlank (headers (parseCSV csvText)))
  ∧ Forall (λ row, notBlank (values row)) (rows (parseCSV csvText)).
Proof.
  split; [apply parseCSVRecords_notBlank|].
  destruct (decide (parseCSVRecords csvText = [])) as [Hnone | Hsome].
  - unfold parseCSV. rewrite Hnone. split; [by left | constructor].
  - destruct (parseCSV_solid csvText Hsome) as [[Hhs _] Hrows].
    split; [by right|].
    eapply Forall_impl; [exact Hrows|]. by intros row [Hrow _].
Qed.

(** ** Loading what was downloaded *)

(** The round trip of a table whose header and rows are solid. *)
Lemma roundtrip_of_solid (t : Table) :
  solid (headers t) →
  Forall (λ row, solid (values row)) (rows t) →
  Forall (λ row, (length (headers t) ≤ length (values row))%nat) (rows t) →
  id <$> rows t = Z.of_nat <$> seq 0 (length (rows t)) →
  parseCSV (generateCSVContent t) = t.
Proof.
  intros Hhead Hrows Hlong Hids.
  unfold parseCSV. rewrite parseCSVRecords_generateCSVContent by done.
  destruct t as [hs rs]. simpl in *. f_equal.
  apply list_eq. intros index.
  rewrite list_lookup_imap, list_lookup_fmap.
  destruct (rs !! index) as [[rowId vs]|] eqn:Hrow; simpl; [|done].
  rewrite Forall_lookup in Hlong. specialize (Hlong _ _ Hrow). simpl in Hlong.
  rewrite padRecord_long by done. do 2 f_equal.
  assert ((id <$> rs) !! index = Some rowId) as Hid
    by (by rewrite list_lookup_fmap, Hrow).
  rewrite Hids, list_lookup_fmap in Hid.
  apply lookup_lt_Some in Hrow.
  rewrite lookup_seq_lt in Hid by done. simpl in Hid. congruence.
Qed.

(** X3: a parsed table is a fixed point of serializing and parsing: the
    file that is downloaded for an unedited table loads as that table. *)
Theorem parse_generate_parse (csvText : jsstring) :
  parseCSV (generateCSVContent (parseCSV csvText)) = parseCSV csvText.
Proof.
  destruct (decide (parseCSVRecords csvText = [])) as [Hnone | Hsome].
  - unfold parseCSV at 2 3. rewrite Hnone. reflexivity.
  - destruct (parseCSV_solid csvText Hsome) as [Hhs Hrows].
    apply roundtrip_of_solid; [done | done | | apply parseCSV_ids].
    apply Forall_forall. intros row. apply parseCSV_rows_padded.
Qed.

(** ** Blank input *)

Section BlankInput.

Implicit Types (s field : jsstring) (currentRecord : list jsstring).

Lemma trimStart_blank s :
  Forall (λ c, isWhiteSpace c = true) s → trimStart s = [].
Proof.
  induction 1 as [|c s Hc _ IH]; simpl; [done|]. by rewrite Hc.
Qed.

Lemma trim_blank s : Forall (λ c, isWhiteSpace c = true) s → trim s = [].
Proof.
  intros Hs. unfold trim, trimEnd. by rewrite (trimStart_blank s) by done.
Qed.

Lemma existsb_nonEmpty_blank currentRecord :
  Forall (λ f, f = []) currentRecord → existsb nonEmpty currentRecord = false.
Proof. induction 1 as [|f l -> _ IH]; simpl; done. Qed.

Lemma recordsAt_blank currentRecord field :
  Forall (λ f, f = []) currentRecord →
  Forall (λ c, isWhiteSpace c = true) field →
  recordsAt [] currentRecord field = [].
Proof.
  intros Hrecord Hfield. unfold recordsAt, pushRecord.
  rewrite trim_blank by done.
  rewrite existsb_nonEmpty_blank; [by destruct (recordPending _ _)|].
  apply Forall_app. split; [done | by apply Forall_singleton].
Qed.

Lemma afterCarriageReturn_suffix (rest : jsstring) :
  afterCarriageReturn rest = rest
  ∨ ∃ next, rest = next :: afterCarriageReturn rest.
Proof.
  destruct rest as [|next rest]; simpl; [by left|].
  destruct (N.eqb next LF); [right; by exists next | by left].
Qed.

Lemma scan_blank_upto n :
  ∀ (csvText : jsstring) currentRecord field,
    (length csvText ≤ n)%nat →
    Forall blankUnit csvText →
    Forall (λ f, f = []) currentRecord →
    Forall (λ c, isWhiteSpace c = true) field →
    scan csvText [] currentRecord field false = [].
Proof.
  induction n as [|n IH]; intros csvText currentRecord field Hlen Htext
    Hrecord Hfield.
  { destruct csvText; [|simpl in Hlen; lia].
    rewrite scan_nil. by apply recordsAt_blank. }
  destruct csvText as [|c rest].
  { rewrite scan_nil. by apply recordsAt_blank. }
  apply Forall_cons in Htext as [Hc Hrest]. simpl in Hlen.
  assert (recordsAt [] currentRecord field = []) as Hat
    by by apply recordsAt_blank.
  unfold recordsAt in Hat.
  destruct (decide (c = COMMA)) as [-> | Hcomma].
  { rewrite scan_comma. apply IH; [lia | done | | constructor].
    apply Forall_app. split; [done|].
    apply Forall_singleton. by apply trim_blank. }
  destruct Hc as [? | Hc]; [done|].
  destruct (decide (c = LF)) as [-> | Hlf].
  { rewrite scan_line_feed.
    destruct (recordPending currentRecord field).
    - rewrite Hat. apply IH; [lia | done | constructor | constructor].
    - apply IH; [lia | done..]. }
  destruct (decide (c = CR)) as [-> | Hcr].
  { assert (length (afterCarriageReturn rest) ≤ n)%nat as Hshort.
    { destruct (afterCarriageReturn_suffix rest) as [-> | [next Hnext]]; [lia|].
      rewrite Hnext in Hlen. simpl in Hlen. lia. }
    assert (Forall blankUnit (afterCarriageReturn rest)) as Hafter.
    { destruct (afterCarriageReturn_suffix rest) as [-> | [next Hnext]]; [done|].
      rewrite Hnext in Hrest. by apply Forall_cons in Hrest as [_ ?]. }
    rewrite scan_carriage_return.
    destruct (recordPending currentRecord field).
    - rewrite Hat. apply IH; [done | done | constructor | constructor].
    - by apply IH. }
  rewrite scan_regular.
  - apply IH; [lia | done | done |].
    apply Forall_app. split; [done | by apply Forall_singleton].
  - intros ->. discriminate Hc.
  - right. done.
Qed.

End BlankInput.

(** X4: a text made of commas and whitespace only, line breaks included,
    has no record: it parses to the table without headers and rows.  The
    empty text is the first case. *)
Theorem parseCSV_blank_text (csvText : jsstring) :
  Forall blankUnit csvText →
  parseCSV csvText = {| headers := []; rows := [] |}.
Proof.
  intros Hblank. unfold parseCSV, parseCSVRecords.
  by rewrite (scan_blank_upto (length csvText)) by (done || constructor).
Qed.

(** Commas, blanks, a tab and the three kinds of line breaks. *)
Lemma parseCSV_blank_text_witness :
  parseCSV (js " , ," ++ [CR; LF] ++ js ",  " ++ [LF; 9%N; CR] ++ js ",")
  = {| headers := []; rows := [] |}.
Proof.
  apply (parseCSV_blank_text
           (js " , ," ++ [CR; LF] ++ js ",  " ++ [LF; 9%N; CR] ++ js ",")).
  vm_compute.
  repeat first [apply Forall_nil_2 | apply Forall_cons_2; [(by left) || (by right)|]].
Defined.

(** ** Line breaks *)

Section LineBreaks.

Implicit Types (rest field : jsstring) (fields init : list jsstring)
  (records : list (list jsstring)) (currentRecord : list jsstring).

Lemma scan_fields_then init lastField rest records currentRecord :
  Forall trimmed init →
  head rest ≠ Some QUOTE →
  scan (join [COMMA] (escapeCSVField <$> init ++ [lastField]) ++ rest)
       records currentRecord [] false
  = scan rest records (currentRecord ++ init) lastField false.
Proof.
  intros Htrim Hrest. revert currentRecord.
  induction Htrim as [|field init Hfield _ IH]; intros currentRecord.
  - simpl. rewrite scan_field by done. by rewrite app_nil_r.
  - change ((field :: init) ++ [lastField]) with (field :: (init ++ [lastField])).
    rewrite fmap_cons, join_cons.
    2: { rewrite fmap_app. simpl. by destruct (escapeCSVField <$> init). }
    rewrite <- !app_assoc. rewrite scan_field by done.
    simpl. rewrite scan_comma, IH, (trim_id field) by done.
    by rewrite <- app_assoc.
Qed.

Lemma solid_pending init lastField records :
  solid (init ++ [lastField]) →
  recordPending init lastField = true
  ∧ pushRecord records init lastField = records ++ [init ++ [lastField]].
Proof.
  intros [Hsome Htrim].
  rewrite Forall_app, Forall_singleton in Htrim. destruct Htrim as [_ Hlast].
  unfold recordPending, pushRecord. rewrite (trim_id lastField), Hsome by done.
  split; [|done].
  destruct lastField as [|c lastField]; [|done].
  destruct init as [|field init]; [done|]. done.
Qed.

Lemma solid_line_head fields rest :
  solid fields →
  head (join [COMMA] (escapeCSVField <$> fields) ++ rest) ≠ Some LF.
Proof.
  intros [Hsome _]. destruct fields as [|field fields]; [done|].
  assert (head (escapeCSVField field ++ COMMA :: rest) ≠ Some LF) as Hfirst.
  { destruct (escapeCSVField_plain field) as [[-> Hfree] | ->]; [|done].
    destruct Hfree as [|c field (_ & _ & Hlf & _) _]; [done|].
    simpl. congruence. }
  destruct fields as [|second fields].
  - simpl. simpl in Hsome. rewrite orb_false_r in Hsome.
    destruct field as [|c field]; [done|].
    destruct (escapeCSVField_plain (c :: field)) as [[-> Hfree] | ->]; [|done].
    apply Forall_cons in Hfree as [(_ & _ & Hlf & _) _]. simpl. congruence.
  - rewrite fmap_cons, join_cons by done. rewrite <- !app_assoc. simpl.
    destruct (escapeCSVField field) as [|c escaped]; [done|].
    simpl in *. done.
Qed.

Lemma afterCarriageReturn_keep rest :
  head rest ≠ Some LF → afterCarriageReturn rest = rest.
Proof.
  destruct rest as [|next rest]; simpl; [done|]. intros Hnext.
  destruct (N.eqb_spec next LF) as [-> | _]; done.
Qed.

Lemma written_cons fields terminator ended unended :
  written ((fields, terminator) :: ended) unended
  = join [COMMA] (escapeCSVField <$> fields)
    ++ terminator ++ written ended unended.
Proof. unfold written. simpl. by rewrite <- !app_assoc. Qed.

Lemma written_head ended unended :
  Forall (λ l, solid l.1 ∧ lineBreak l.2) ended →
  (∀ fields, unended = Some fields → solid fields) →
  head (written ended unended) ≠ Some LF.
Proof.
  intros Hended Hunended. destruct Hended as [|[fields t] ended [Hsolid _] _].
  - unfold written. simpl. destruct unended as [fields|]; simpl; [|done].
    rewrite <- (app_nil_r (join _ _)). by apply solid_line_head, Hunended.
  - rewrite written_cons. by apply solid_line_head.
Qed.

Lemma scan_written ended unended records :
  Forall (λ l, solid l.1 ∧ lineBreak l.2) ended →
  (∀ fields, unended = Some fields → solid fields) →
  scan (written ended unended) records [] [] false
  = records ++ ended.*1 ++ option_list unended.
Proof.
  intros Hended Hunended. revert records.
  induction Hended as [|[fields t] ended [Hsolid Hbreak] Hrest IH];
    intros records.
  - unfold written. simpl. destruct unended as [fields|]; simpl.
    + pose proof (Hunended _ eq_refl) as Hsolid.
      destruct fields as [|lastField init _] using rev_ind;
        [by destruct Hsolid|].
      destruct (solid_pending init lastField records Hsolid) as [Hpending Hpush].
      destruct Hsolid as [_ [Hinit _]%Forall_app].
      rewrite <- (app_nil_r (join _ _)).
      rewrite scan_fields_then, scan_nil by done.
      unfold recordsAt. simpl. by rewrite Hpending, Hpush.
    + by rewrite scan_nil, app_nil_r.
  - rewrite written_cons. simpl.
    destruct fields as [|lastField init _] using rev_ind;
      [by destruct Hsolid|]. simpl in Hsolid, Hbreak. unfold lineBreak in Hbreak.
    destruct (solid_pending init lastField records Hsolid) as [Hpending Hpush].
    destruct Hsolid as [_ [Hinit _]%Forall_app].
    rewrite scan_fields_then; [|done|by destruct Hbreak as [-> | [-> | ->]]].
    destruct Hbreak as [-> | [-> | ->]]; simpl.
    + rewrite scan_line_feed, Hpending, Hpush, IH. by rewrite <- app_assoc.
    + rewrite scan_carriage_return, Hpending, Hpush.
      rewrite afterCarriageReturn_keep by by apply written_head.
      rewrite IH. by rewrite <- app_assoc.
    + rewrite scan_carriage_return, Hpending, Hpush. simpl.
      rewrite IH. by rewrite <- app_assoc.
Qed.

End LineBreaks.

(** X5: line feed, carriage return and the pair of both end a line alike, and
    the last line needs no line break: a text of solid records, their fields
    quoted where the serializer quotes, parses to these records whatever the
    line breaks are. *)
Theorem parseCSVRecords_line_breaks
    (ended : list (list jsstring * jsstring)) (unended : option (list jsstring)) :
  Forall (λ l, solid l.1 ∧ lineBreak l.2) ended →
  (∀ fields, unended = Some fields → solid fields) →
  parseCSVRecords (written ended unended) = ended.*1 ++ option_list unended.
Proof.
  intros Hended Hunended. unfold parseCSVRecords.
  by rewrite scan_written.
Qed.

(** A header ended by the pair, a row ended by a carriage return, a row with
    a quoted field ended by a line feed, and a last row without an end. *)
Lemma parseCSVRecords_line_breaks_witness :
  parseCSVRecords
    (js "Day,Lunch" ++ [CR; LF] ++ js "Mon,Rice" ++ [CR]
     ++ js "Tue," ++ [QUOTE] ++ js "Dal, Roti" ++ [QUOTE; LF] ++ js "Wed,Idli")
  = [ [js "Day"; js "Lunch"]; [js "Mon"; js "Rice"];
      [js "Tue"; js "Dal, Roti"]; [js "Wed"; js "Idli"] ].
Proof.
  apply (parseCSVRecords_line_breaks
           [ ([js "Day"; js "Lunch"], [CR; LF]);
             ([js "Mon"; js "Rice"], [CR]);
             ([js "Tue"; js "Dal, Roti"], [LF]) ]
           (Some [js "Wed"; js "Idli"])).
  - repeat (apply Forall_cons_2;
              [split; [split; [reflexivity | repeat constructor]
                      | unfold lineBreak; simpl; auto]|]).
    apply Forall_nil_2.
  - intros fields [= <-]. split; [reflexivity | repeat constructor].
Defined.

(** ** The handlers of the editor *)

Section EditorHandlers.

Implicit Types (st : EditorState) (rs : list Row) (t : Table).

Lemma omap_nil_inv {A B} (f : A → option B) (l : list A) :
  omap f l = [] → ∀ x, x ∈ l → f x = None.
Proof.
  induction l as [|y l IH]; simpl; [by intros _ x ?%elem_of_nil|].
  destruct (f y) eqn:Hy; [done|].
  intros Hnil x [-> | Hx]%elem_of_cons; [done | by apply IH].
Qed.

(** Equal tables with distinct ids have no change to report. *)
Lemma calculateChanges_same st :
  currentData st = originalData st →
  NoDup (id <$> rows (originalData st)) →
  calculateChanges st = [].
Proof.
  intros Hsame Hnodup. unfold calculateChanges. rewrite Hsame.
  rewrite (omap_none _ (imap pair (rows (originalData st)))).
  2: { intros [j r] Hr%elem_of_indexed%list_elem_of_lookup_2.
       rewrite decide_True; [done|]. rewrite elem_of_list_to_set.
       by apply list_elem_of_fmap_2. }
  rewrite (omap_none _ (rows (originalData st))).
  2: { intros r Hr. rewrite decide_True; [done|].
       rewrite elem_of_list_to_set. by apply list_elem_of_fmap_2. }
  rewrite (omap_none _ (imap pair (rows (originalData st)))); [done|].
  intros [j r] Hr%elem_of_indexed%list_elem_of_lookup_2.
  rewrite findRow_NoDup by done.
  by rewrite decide_False by (intros Hne; by apply Hne).
Qed.

Lemma handleCellChange_ids st rowId colIndex newValue :
  id <$> rows (currentData (handleCellChange st rowId colIndex newValue))
  = id <$> rows (currentData st).
Proof.
  unfold handleCellChange.
  destruct (list_find _ _) as [[index row]|] eqn:Hfind; [|done]. simpl.
  apply list_find_Some in Hfind as (Hrow & _ & _).
  rewrite list_fmap_insert. simpl. apply list_insert_id.
  by rewrite list_lookup_fmap, Hrow.
Qed.

Lemma handleCellChange_frame st rowId colIndex newValue :
  originalData (handleCellChange st rowId colIndex newValue) = originalData st
  ∧ headers (currentData (handleCellChange st rowId colIndex newValue))
    = headers (currentData st).
Proof.
  unfold handleCellChange. by destruct (list_find _ _) as [[index row]|].
Qed.

End EditorHandlers.

(** X6: a cell change, whatever row id and column it names, leaves the
    original table, the headers, the number of rows and the ids of the rows
    in their order as they are. *)
Theorem handleCellChange_keeps_rows (st : EditorState) (rowId : Z)
    (colIndex : nat) (newValue : jsstring) :
  let st' := handleCellChange st rowId colIndex newValue in
  originalData st' = originalData st
  ∧ headers (currentData st') = headers (currentData st)
  ∧ id <$> rows (currentData st') = id <$> rows (currentData st)
  ∧ length (rows (currentData st')) = length (rows (currentData st)).
Proof.
  simpl. destruct (handleCellChange_frame st rowId colIndex newValue) as [? ?].
  pose proof (handleCellChange_ids st rowId colIndex newValue) as Hids.
  split_and!; [done..|].
  apply (f_equal length) in Hids. by rewrite !length_fmap in Hids.
Qed.

(** X7: deleting rows.  When the dialog is declined the state stays.
    When it is confirmed, the rows that remain are the rows whose id is not
    selected, in the order they had; the original table and the headers
    stay.  Selected ids that no row has delete nothing. *)
Theorem deleteSelectedRow_removes_selected (st : EditorState)
    (selectedRowIds : list Z) (confirmed : bool) :
  let st' := deleteSelectedRow st selectedRowIds confirmed in
  (confirmed = false → st' = st)
  ∧ (confirmed = true →
     ∀ row, row ∈ rows (currentData st')
            ↔ row ∈ rows (currentData st) ∧ id row ∉ selectedRowIds)
  ∧ rows (currentData st') `sublist_of` rows (currentData st)
  ∧ ((∀ i, i ∈ selectedRowIds → i ∉ id <$> rows (currentData st)) →
     currentData st' = currentData st)
  ∧ originalData st' = originalData st
  ∧ headers (currentData st') = headers (currentData st).
Proof.
  simpl. unfold deleteSelectedRow.
  destruct selectedRowIds as [|i selected].
  { simpl. split_and!; try done. intros _ row. split; [|by intros [? _]].
    intros Hrow. split; [done | apply not_elem_of_nil]. }
  rewrite bool_decide_eq_false_2 by done.
  destruct confirmed; simpl.
  - split_and!; try done.
    + intros _ row. rewrite list_elem_of_filter. by split; intros [? ?].
    + apply sublist_filter.
    + intros Habsent. destruct (currentData st) as [hs rs]. simpl in *.
      f_equal. induction rs as [|row rs IH]; [done|].
      rewrite filter_cons_True.
      * f_equal. apply IH. intros j Hj Hin. apply (Habsent j Hj).
        rewrite fmap_cons. by constructor.
      * intros Hin. apply (Habsent _ Hin). rewrite fmap_cons. constructor.
  - split_and!; done.
Qed.

(** Row 0 of the example is deleted: row 1 remains. *)
Lemma deleteSelectedRow_removes_selected_witness :
  {| id := 1; values := [js "2"; []] |}
  ∈ rows (currentData (deleteSelectedRow exampleState [0] true)).
Proof.
  apply (proj1 (proj2 (deleteSelectedRow_removes_selected exampleState [0] true))
               eq_refl).
  split.
  - vm_compute. apply list_elem_of_further, list_elem_of_here.
  - apply (bool_decide_unpack _). vm_compute. exact I.
Defined.

(** X8: a confirmed reset makes the current table the original one, clears
    the flag and, the original ids being distinct, leaves no change to
    report; a declined reset leaves the state as it is. *)
Theorem resetChanges_discards_changes (st : EditorState) :
  NoDup (id <$> rows (originalData st)) →
  currentData (resetChanges st true) = originalData st
  ∧ originalData (resetChanges st true) = originalData st
  ∧ hasChanges (resetChanges st true) = false
  ∧ calculateChanges (resetChanges st true) = []
  ∧ resetChanges st false = st.
Proof.
  intros Hnodup. split_and!; try done.
  - simpl. by apply bool_decide_eq_false_2; intros Hne; apply Hne.
  - by apply calculateChanges_same.
Qed.

(** The example, edited in one cell and reset. *)
Lemma resetChanges_discards_changes_witness :
  calculateChanges
    (resetChanges (handleCellChange exampleState 0 1 (js "101-199")) true)
  = [].
Proof.
  apply (resetChanges_discards_changes
           (handleCellChange exampleState 0 1 (js "101-199"))).
  apply (bool_decide_unpack _). vm_compute. exact I.
Defined.

(** X9: saving makes the original table the current one and clears the
    flag; the current ids being distinct, no change is left to report, and a
    reset after it changes nothing: what was saved over cannot be restored. *)
Theorem saveChanges_commits (st : EditorState) :
  NoDup (id <$> rows (currentData st)) →
  originalData (saveChanges st) = currentData st
  ∧ currentData (saveChanges st) = currentData st
  ∧ hasChanges (saveChanges st) = false
  ∧ calculateChanges (saveChanges st) = []
  ∧ resetChanges (saveChanges st) true = saveChanges st.
Proof.
  intros Hnodup. split_and!; try done.
  - by apply calculateChanges_same.
  - unfold resetChanges, saveChanges, checkForChanges. simpl. f_equal.
    by apply bool_decide_eq_false_2; intros Hne; apply Hne.
Qed.

(** The example, edited in one cell and saved. *)
Lemma saveChanges_commits_witness :
  calculateChanges
    (saveChanges (handleCellChange exampleState 0 1 (js "101-199")))
  = [].
Proof.
  apply (saveChanges_commits
           (handleCellChange exampleState 0 1 (js "101-199"))).
  apply (bool_decide_unpack _). vm_compute. exact I.
Defined.

(** X10: selecting a file.  With changes pending and the dialog declined
    the state stays.  Otherwise currentFile names the selected file; when the
    file cannot be fetched, the tables and the flag stay as they were; when
    it is fetched, both tables are the parsed text and there is no change to
    report, while the flag keeps the value it had: after unsaved changes were
    discarded it is still set. *)
Theorem selectFile_loads (st : EditorState) (filename : jsstring)
    (confirmed : bool) :
  (hasChanges st = true → confirmed = false →
   ∀ fetched, selectFile st filename confirmed fetched = st)
  ∧ (hasChanges st = false ∨ confirmed = true →
     selectFile st filename confirmed None
     = {| originalData := originalData st;
          currentData := currentData st;
          currentFile := Some filename;
          hasChanges := hasChanges st |})
  ∧ (hasChanges st = false ∨ confirmed = true →
     ∀ csvText,
       let st' := selectFile st filename confirmed (Some csvText) in
       originalData st' = parseCSV csvText
       ∧ currentData st' = parseCSV csvText
       ∧ currentFile st' = Some filename
       ∧ calculateChanges st' = []
       ∧ hasChanges st' = hasChanges st).
Proof.
  assert (hasChanges st = false ∨ confirmed = true →
          hasChanges st && negb confirmed = false) as Hgoes
    by (intros [-> | ->]; [done | apply andb_false_r]).
  unfold selectFile. split_and!.
  - by intros -> ->.
  - intros Hgo. by rewrite Hgoes.
  - intros Hgo csvText. rewrite Hgoes by done.
    simpl. split_and!; try done.
    apply calculateChanges_same; [done|]. apply parseCSV_ids_NoDup.
Qed.

(** A file is selected over the edited example and the dialog is confirmed:
    the flag stays set although nothing differs; and when that file cannot
    be fetched, the edited table stays under the name of the new file. *)
Lemma selectFile_loads_witness :
  let edited := handleCellChange exampleState 0 1 (js "101-199") in
  (let st := selectFile edited (js "VITC-B-L.csv") true (Some exampleText) in
   calculateChanges st = [] ∧ hasChanges st = true)
  ∧ (let st := selectFile edited (js "VITC-B-L.csv") true None in
     currentData st = currentData edited
     ∧ currentFile st = Some (js "VITC-B-L.csv")).
Proof.
  intros edited.
  destruct (selectFile_loads edited (js "VITC-B-L.csv") true)
    as (_ & Hfailed & Hloaded).
  split.
  - destruct (Hloaded (or_intror eq_refl) exampleText)
      as (_ & _ & _ & Hchanges & Hflag).
    split; [exact Hchanges|]. etransitivity; [exact Hflag|]. reflexivity.
  - cbv zeta. rewrite (Hfailed (or_intror eq_refl)). split; reflexivity.
Defined.

(** ** What a session keeps *)

Section Sessions.

Implicit Types (st : EditorState) (rs : list Row) (t : Table) (l : list Z).

Lemma StronglySorted_lt_NoDup l : StronglySorted Z.lt l → NoDup l.
Proof.
  induction 1 as [|x l _ IH Hx]; constructor; [|done].
  intros Hin. rewrite Forall_forall in Hx. specialize (Hx _ Hin). lia.
Qed.

Lemma StronglySorted_positions j n :
  StronglySorted Z.lt (Z.of_nat <$> seq j n).
Proof.
  revert j. induction n as [|n IH]; intros j; simpl; constructor; [apply IH|].
  apply Forall_fmap, Forall_seq. intros i Hi. simpl. lia.
Qed.

Lemma StronglySorted_ids_filter (P : Row → Prop) `{!∀ r, Decision (P r)} rs :
  StronglySorted Z.lt (id <$> rs) →
  StronglySorted Z.lt (id <$> filter P rs).
Proof.
  induction rs as [|r rs IH]; [done|].
  rewrite fmap_cons. intros [Hr Hrs]%StronglySorted_cons.
  rewrite filter_cons. destruct (decide (P r)); [|by apply IH].
  rewrite fmap_cons. apply StronglySorted_cons. split; [|by apply IH].
  rewrite Forall_forall in *. intros i (r' & -> & [_ Hr']%list_elem_of_filter)%list_elem_of_fmap.
  apply Hr. by apply list_elem_of_fmap_2.
Qed.

Lemma coherent_checkForChanges original current file flag :
  headers current = headers original →
  idsAscending original → idsAscending current →
  coherent (checkForChanges {| originalData := original;
                               currentData := current;
                               currentFile := file;
                               hasChanges := flag |}).
Proof. intros. by split_and!. Qed.

Lemma coherent_handle st e : coherent st → coherent (handle st e).
Proof.
  intros Hst. pose proof Hst as (Hheaders & Horiginal & Hcurrent & _).
  destruct e as [rowId colIndex newValue | | selected confirmed | confirmed |];
    simpl.
  - destruct (handleCellChange_frame st rowId colIndex newValue)
      as [Horig Hhs].
    pose proof (handleCellChange_ids st rowId colIndex newValue) as Hids.
    unfold handleCellChange in *.
    destruct (list_find _ _) as [[index row]|]; [|done].
    apply coherent_checkForChanges; simpl in *; [done..|].
    unfold idsAscending. simpl. by rewrite Hids.
  - apply coherent_checkForChanges; [done..|].
    unfold idsAscending. simpl. rewrite fmap_app.
    apply StronglySorted_app_2; [|done|repeat constructor].
    intros i j Hi ->%list_elem_of_singleton. by apply newRowId_above.
  - unfold deleteSelectedRow.
    destruct (bool_decide (length selected = 0%nat)); [done|].
    destruct confirmed; [|done].
    apply coherent_checkForChanges; [done..|].
    by apply StronglySorted_ids_filter.
  - unfold resetChanges. destruct confirmed; [|done].
    by apply coherent_checkForChanges.
  - unfold saveChanges, coherent. simpl. split_and!; [done..|].
    symmetry. by apply bool_decide_eq_false_2; intros Hne; apply Hne.
Qed.

Lemma coherent_load st filename csvText :
  hasChanges st = false → coherent (loadFileData st filename (Some csvText)).
Proof.
  intros Hflag. unfold coherent, idsAscending. simpl.
  rewrite parseCSV_ids. split_and!; [done | apply StronglySorted_positions..|].
  rewrite Hflag. symmetry.
  by apply bool_decide_eq_false_2; intros Hne; apply Hne.
Qed.

Lemma reachable_coherent st : reachable st → coherent st.
Proof.
  induction 1 as [st filename csvText Hflag | st e _ IH _];
    [by apply coherent_load | by apply coherent_handle].
Qed.

(** With the ids of both tables in ascending order, an empty summary means
    equal rows. *)
Lemma calculateChanges_nil_rows st :
  idsAscending (originalData st) → idsAscending (currentData st) →
  calculateChanges st = [] →
  rows (currentData st) = rows (originalData st).
Proof.
  intros Horiginal Hcurrent Hnil. unfold calculateChanges in Hnil.
  apply app_eq_nil in Hnil as [Hadded [Hdeleted Hmodified]%app_eq_nil].
  pose proof (omap_nil_inv _ _ Hadded) as Hadded'.
  pose proof (omap_nil_inv _ _ Hdeleted) as Hdeleted'.
  pose proof (omap_nil_inv _ _ Hmodified) as Hmodified'.
  clear Hadded Hdeleted Hmodified.
  set (original := rows (originalData st)) in *.
  set (current := rows (currentData st)) in *.
  unfold idsAscending in *. fold original in Horiginal. fold current in Hcurrent.
  pose proof (StronglySorted_lt_NoDup _ Horiginal) as Hnd_original.
  pose proof (StronglySorted_lt_NoDup _ Hcurrent) as Hnd_current.
  assert (id <$> current = id <$> original) as Hids.
  { apply (StronglySorted_unique_strong Z.lt); [intros; lia | done..|].
    apply NoDup_Permutation; [done..|]. intros i. split.
    - intros (row & -> & [index Hrow]%list_elem_of_lookup)%list_elem_of_fmap.
      specialize (Hadded' (index, row)). simpl in Hadded'.
      destruct (decide (id row ∈ (list_to_set (id <$> original) : gset Z)))
        as [Hin | Hout].
      + by rewrite elem_of_list_to_set in Hin.
      + discriminate Hadded'. by apply elem_of_indexed.
    - intros (row & -> & Hrow)%list_elem_of_fmap.
      specialize (Hdeleted' row Hrow). simpl in Hdeleted'.
      destruct (decide (id row ∈ (list_to_set (id <$> current) : gset Z)))
        as [Hin | Hout]; [|done].
      by rewrite elem_of_list_to_set in Hin. }
  apply list_eq. intros index.
  pose proof (f_equal (λ ids, ids !! index) Hids) as Hindex. simpl in Hindex.
  rewrite !list_lookup_fmap in Hindex.
  destruct (current !! index) as [row|] eqn:Hrow,
           (original !! index) as [originalRow|] eqn:Horow;
    simpl in Hindex; try done.
  injection Hindex as Hid.
  specialize (Hmodified' (index, row)). simpl in Hmodified'.
  rewrite Hid, (findRow_NoDup original originalRow) in Hmodified';
    [|done|by eapply list_elem_of_lookup_2].
  destruct (decide (values row ≠ values originalRow)) as [Hne | Heq].
  { discriminate Hmodified'. by apply elem_of_indexed. }
  apply dec_stable in Heq. f_equal.
  destruct row, originalRow. simpl in *. by subst.
Qed.

End Sessions.

(** X11: a session keeps the state coherent.  From a file loaded while no
    change was pending, through cell changes on rendered inputs, added rows,
    deletions, resets and saves: the two tables have the same headers, the
    ids of both are in ascending order, and hasChanges is set exactly when
    the tables differ. *)
Theorem session_coherent (st : EditorState) : reachable st → coherent st.
Proof. apply reachable_coherent. Qed.

(** X12: in a session the change summary is empty exactly when hasChanges is
    clear: whenever the editor offers the download there is a change to
    show, and the reverse. *)
Theorem session_flag_matches_summary (st : EditorState) :
  reachable st → (hasChanges st = false ↔ calculateChanges st = []).
Proof.
  intros (Hheaders & Horiginal & Hcurrent & Hflag)%reachable_coherent.
  rewrite Hflag. rewrite bool_decide_eq_false. split.
  - intros Hsame%dec_stable. apply calculateChanges_same; [done|].
    by apply StronglySorted_lt_NoDup.
  - intros Hnil Hne. apply Hne.
    pose proof (calculateChanges_nil_rows st Horiginal Hcurrent Hnil) as Hrows.
    destruct (currentData st), (originalData st). simpl in *. by subst.
Qed.

(** The example with one cell edited is a state of a session. *)
Lemma edited_example_reachable :
  reachable (handle exampleState (CellChanged 0 1 (js "101-199"))).
Proof.
  apply reachable_handle.
  - apply (reachable_load _ exampleFile exampleText). reflexivity.
  - exists {| id := 0; values := [js "1"; js "101-150"] |}.
    split_and!; [|reflexivity|simpl; lia].
    vm_compute. apply list_elem_of_here.
Defined.

Lemma session_coherent_witness :
  coherent (handle exampleState (CellChanged 0 1 (js "101-199"))).
Proof. apply session_coherent, edited_example_reachable. Defined.

Lemma session_flag_matches_summary_witness :
  calculateChanges (handle exampleState (CellChanged 0 1 (js "101-199"))) ≠ [].
Proof.
  intros Hnil.
  apply (session_flag_matches_summary _ edited_example_reachable) in Hnil.
  discriminate Hnil.
Defined.

(** ** A deleted id that comes back *)

Section ReusedId.

Implicit Types (st : EditorState) (rs : list Row).

Lemma foldr_max_positions m :
  foldr Z.max (-1) (Z.of_nat <$> seq 0 m) = Z.of_nat m - 1.
Proof.
  destruct m as [|m]; [done|].
  assert (Z.of_nat m ∈ Z.of_nat <$> seq 0 (S m)) as Hlast.
  { apply list_elem_of_fmap_2, elem_of_seq. lia. }
  apply foldr_max_upper in Hlast.
  destruct (foldr_max_attained (Z.of_nat <$> seq 0 (S m))) as [Heq | Hin];
    [lia|].
  apply list_elem_of_fmap in Hin as (k & Hk & Hin%elem_of_seq). lia.
Qed.

Lemma existsb_nonEmpty_replicate n :
  existsb nonEmpty (replicate n ([] : jsstring)) = false.
Proof. induction n as [|n IH]; [done|]. simpl. exact IH. Qed.

(** The tables differ in one row that kept its id. *)
Lemma calculateChanges_one_row st before row row' after :
  rows (originalData st) = before ++ row :: after →
  rows (currentData st) = before ++ row' :: after →
  id row' = id row →
  values row' ≠ values row →
  NoDup (id <$> rows (originalData st)) →
  calculateChanges st = [modifiedChange (length before) row'].
Proof.
  intros Horiginal Hcurrent Hid Hvalues Hnodup.
  unfold calculateChanges. rewrite Horiginal, Hcurrent.
  rewrite Horiginal in Hnodup.
  set (original := before ++ row :: after) in *.
  assert (id <$> before ++ row' :: after = id <$> original) as Hids.
  { unfold original. by rewrite !fmap_app, !fmap_cons, Hid. }
  rewrite (omap_none _ (imap pair (before ++ row' :: after))).
  2: { intros [j r] Hr%elem_of_indexed%list_elem_of_lookup_2.
       rewrite decide_True; [done|]. rewrite elem_of_list_to_set, <- Hids.
       by apply list_elem_of_fmap_2. }
  rewrite (omap_none _ original).
  2: { intros r Hr. rewrite decide_True; [done|].
       rewrite elem_of_list_to_set, Hids. by apply list_elem_of_fmap_2. }
  simpl. rewrite imap_app, omap_app, imap_cons. simpl.
  assert (∀ r, r ∈ original → findRow (id r) original = Some r) as Hfind
    by (intros r; by apply findRow_NoDup).
  rewrite (omap_none _ (imap pair before)).
  2: { intros [j r] Hr%elem_of_indexed%list_elem_of_lookup_2.
       rewrite Hfind by (apply elem_of_app; by left).
       by rewrite decide_False by (intros Hne; by apply Hne). }
  rewrite Hid, (Hfind row) by (apply elem_of_app; right; constructor).
  rewrite decide_True by done.
  rewrite (omap_none _ (imap _ after)).
  2: { intros [j r] (i & r' & [= -> ->] & Hr%list_elem_of_lookup_2)%elem_of_lookup_imap.
       rewrite Hfind by (apply elem_of_app; right; by constructor).
       by rewrite decide_False by (intros Hne; by apply Hne). }
  simpl. by rewrite Nat.add_0_r.
Qed.

End ReusedId.

(** X13: when the last row of a loaded file is deleted and a row is added,
    the new row gets the id of the deleted one, and the summary reports one
    modified row at that position instead of a deleted and an added row. *)
Theorem delete_last_then_add_is_modified (st0 : EditorState)
    (filename csvText : jsstring) (init : list Row) (lastRow : Row) :
  rows (parseCSV csvText) = init ++ [lastRow] →
  let st := addRow (deleteSelectedRow (loadFileData st0 filename (Some csvText))
                                      [id lastRow] true) in
  rows (currentData st)
  = init ++ [ {| id := id lastRow;
                 values := replicate (length (headers (parseCSV csvText))) [] |} ]
  ∧ calculateChanges st
    = [ modifiedChange (length init)
          {| id := id lastRow;
             values := replicate (length (headers (parseCSV csvText))) [] |} ].
Proof.
  intros Hrows.
  pose proof (parseCSV_ids csvText) as Hids.
  rewrite Hrows, length_app, Nat.add_1_r, seq_S in Hids.
  rewrite !fmap_app in Hids. simpl in Hids.
  apply app_inj_2 in Hids as [Hinit [= Hlast]]; [|done].
  assert (filter (λ row, id row ∉ [id lastRow]) (init ++ [lastRow]) = init)
    as Hfilter.
  { rewrite filter_app, filter_cons_False, filter_nil, app_nil_r.
    2: { intros Hout. apply Hout. constructor. }
    clear Hrows.
    assert (∀ row, row ∈ init → id row ≠ id lastRow) as Hother.
    { intros row Hrow%(list_elem_of_fmap_2 id). rewrite Hinit in Hrow.
      apply list_elem_of_fmap in Hrow as (k & -> & Hk%elem_of_seq).
      rewrite Hlast. lia. }
    clear Hinit Hlast. induction init as [|row init IH]; [done|].
    rewrite filter_cons_True.
    - f_equal. apply IH. intros r Hr. apply Hother. by constructor.
    - intros Hsame%list_elem_of_singleton. by apply (Hother row); [constructor|]. }
  assert (rows (currentData (addRow (deleteSelectedRow
            (loadFileData st0 filename (Some csvText)) [id lastRow] true)))
          = init ++ [ {| id := id lastRow;
                         values := replicate (length (headers (parseCSV csvText))) [] |} ])
    as Hcurrent.
  { simpl. rewrite Hrows, Hfilter. do 3 f_equal.
    unfold newRowId. simpl. rewrite Hinit, foldr_max_positions.
    rewrite Hlast. lia. }
  split; [exact Hcurrent|].
  apply (calculateChanges_one_row _ init lastRow _ []).
  - exact Hrows.
  - exact Hcurrent.
  - done.
  - simpl. intros Hblank.
    assert (parseCSVRecords csvText ≠ []) as Hsome.
    { intros Hnone. unfold parseCSV in Hrows. rewrite Hnone in Hrows.
      by destruct init. }
    destruct (parseCSV_solid csvText Hsome) as [_ Hsolid].
    rewrite Hrows, Forall_app, Forall_singleton in Hsolid.
    destruct Hsolid as [_ [Hnotblank _]].
    by rewrite <- Hblank, existsb_nonEmpty_replicate in Hnotblank.
  - apply parseCSV_ids_NoDup.
Qed.

(** On the example: row 1 is deleted, a row is added, and the summary is the
    one change modified, Row 2: , ... *)
Lemma delete_last_then_add_is_modified_witness :
  calculateChanges (addRow (deleteSelectedRow exampleState [1] true))
  = [ {| type := modified; description := js "Row 2: , ..." |} ].
Proof.
  apply (proj2 (delete_last_then_add_is_modified
                  {| originalData := {| headers := []; rows := [] |};
                     currentData := {| headers := []; rows := [] |};
                     currentFile := None;
                     hasChanges := false |}
                  exampleFile exampleText
                  [ {| id := 0; values := [js "1"; js "101-150"] |} ]
                  {| id := 1; values := [js "2"; []] |} eq_refl)).
Defined.

(** ** Escaping for HTML *)

Section EscapeHtml.

Implicit Types (text s t : jsstring) (m a b : codeunit).

Lemma escapeHtml_cons m text :
  escapeHtml (m :: text) = escapeHtml [m] ++ escapeHtml text.
Proof. unfold escapeHtml. rewrite !bind_cons. simpl. by rewrite app_nil_r. Qed.

Local Ltac escape_cases m :=
  unfold escapeHtml; rewrite bind_cons; cbn beta;
  destruct (N.eqb_spec m AMPERSAND) as [-> | ?];
  [|destruct (N.eqb_spec m LESS) as [-> | ?];
    [|destruct (N.eqb_spec m GREATER) as [-> | ?];
      [|destruct (N.eqb_spec m QUOTE) as [-> | ?];
        [|destruct (N.eqb_spec m APOSTROPHE) as [-> | ?]]]]].

Lemma escapeHtml_unit_no_markup m : Forall (λ c, ¬ markup c) (escapeHtml [m]).
Proof.
  escape_cases m;
    try solve [vm_compute;
               repeat (constructor; [intros [?|[?|[?|?]]]; discriminate|]);
               constructor].
  simpl. constructor; [|constructor].
  intros [? | [? | [? | ?]]]; done.
Qed.

Lemma escapeHtml_unit_inj a b (s t : jsstring) :
  escapeHtml [a] ++ s = escapeHtml [b] ++ t → a = b ∧ s = t.
Proof.
  escape_cases a; escape_cases b; intros Heq; vm_compute in Heq;
    simplify_eq; done.
Qed.

Lemma escapeHtml_unit_cons m : ∃ c rest, escapeHtml [m] = c :: rest.
Proof. escape_cases m; vm_compute; eauto. Qed.

End EscapeHtml.

(** X14: what escapeHtml returns holds no angle bracket, no double quote and
    no apostrophe, whatever the text: a value put into markup cannot end the
    attribute or the element it is written into. *)
Theorem escapeHtml_no_markup (text : jsstring) :
  Forall (λ c, ¬ markup c) (escapeHtml text).
Proof.
  induction text as [|m text IH]; [constructor|].
  rewrite escapeHtml_cons. apply Forall_app. split; [|done].
  apply escapeHtml_unit_no_markup.
Qed.

(** X15: escapeHtml loses nothing: two texts with the same escaped form are
    the same text. *)
Theorem escapeHtml_injective (s t : jsstring) :
  escapeHtml s = escapeHtml t → s = t.
Proof.
  revert t. induction s as [|a s IH]; intros [|b t].
  - done.
  - rewrite escapeHtml_cons.
    destruct (escapeHtml_unit_cons b) as (c & rest & ->). done.
  - rewrite escapeHtml_cons.
    destruct (escapeHtml_unit_cons a) as (c & rest & ->). done.
  - rewrite (escapeHtml_cons a s), (escapeHtml_cons b t).
    intros [-> Hrest]%escapeHtml_unit_inj.
    f_equal. by apply IH.
Qed.

(** The statement at a text with a tag and an attribute value. *)
Lemma escapeHtml_injective_witness :
  escapeHtml (js "<b id='x'>") = escapeHtml (js "<b id='x'>")
  ∧ js "<b id='x'>" = js "<b id='x'>".
Proof.
  split; [reflexivity|].
  apply (escapeHtml_injective (js "<b id='x'>") (js "<b id='x'>")).
  reflexivity.
Defined.

(** ** More on the cache controller *)

Section CacheFrames.

Import ServiceWorker.

Implicit Types (name key tag n k : jsstring) (response : Response)
  (caches : CacheStorage) (bucket : list N * gmap (list N) Response).

Lemma caches_keys_cache_put name key response caches :
  caches_keys (cache_put name key response caches) = caches_keys caches.
Proof.
  unfold caches_keys. induction caches as [|[n cache] caches IH]; [done|].
  simpl. case_decide; [done|]. rewrite !fmap_cons. simpl. by f_equal.
Qed.

Lemma bucket_lookup_cache_put n k name key response caches :
  bucket_lookup n k (cache_put name key response caches)
  = if decide (n = name ∧ k = key ∧ name ∈ caches_keys caches)
    then Some response else bucket_lookup n k caches.
Proof.
  unfold caches_keys. induction caches as [|[m cache] caches IH]; simpl.
  - rewrite decide_False; [done|]. by intros (_ & _ & ?%elem_of_nil).
  - destruct (decide (m = name)) as [-> | Hm]; simpl.
    + destruct (decide (name = n)) as [<- | Hn].
      * destruct (decide (k = key)) as [-> | Hk].
        -- rewrite decide_True by (split_and!; [done..|constructor]).
           apply lookup_insert_eq.
        -- rewrite decide_False by (by intros (_ & ? & _)).
           by apply lookup_insert_ne.
      * rewrite decide_False by (intros (? & _ & _); congruence). done.
    + rewrite IH. destruct (decide (m = n)) as [-> | Hn].
      * rewrite decide_False by (intros (? & _ & _); congruence). done.
      * apply decide_ext. rewrite elem_of_cons.
        split; intros (? & ? & Hin); split_and!; auto.
        destruct Hin as [-> | Hin]; [by destruct Hm | done].
Qed.

Lemma bucket_lookup_caches_open n k name caches :
  bucket_lookup n k (caches_open name caches) = bucket_lookup n k caches.
Proof.
  unfold caches_open. case_decide as Habsent; [done|].
  induction caches as [|[m cache] caches IH]; simpl.
  - by case_decide.
  - case_decide; [done|]. apply IH.
    intros Hin. apply Habsent. unfold caches_keys in *. rewrite fmap_cons.
    by constructor.
Qed.

Lemma caches_match_open key name caches :
  caches_match key (caches_open name caches) = caches_match key caches.
Proof.
  unfold caches_open. case_decide as Habsent; [done|].
  induction caches as [|[m cache] caches IH]; simpl; [done|].
  destruct (cache !! key); [done|]. apply IH.
  intros Hin. apply Habsent. unfold caches_keys in *. rewrite fmap_cons.
  by constructor.
Qed.

Lemma caches_match_put key name response caches :
  caches_match key caches = None →
  name ∈ caches_keys caches →
  caches_match key (cache_put name key response caches) = Some response.
Proof.
  unfold caches_keys. induction caches as [|[m cache] caches IH]; simpl.
  - by intros _ ?%elem_of_nil.
  - destruct (cache !! key) eqn:Hkey; [done|]. intros Hmiss Hin.
    case_decide as Hm; simpl.
    + by rewrite lookup_insert_eq.
    + rewrite Hkey. apply IH; [done|].
      apply elem_of_cons in Hin as [Heq | Hin]; [by destruct Hm | done].
Qed.

Lemma filter_ext_in {A} (P Q : A → Prop) `{!∀ x, Decision (P x)}
    `{!∀ x, Decision (Q x)} (l : list A) :
  (∀ x, x ∈ l → P x ↔ Q x) → filter P l = filter Q l.
Proof.
  induction l as [|x l IH]; intros Hext; [done|].
  rewrite !filter_cons.
  rewrite IH by (intros y Hy; apply Hext; by constructor).
  apply decide_ext, Hext. constructor.
Qed.

Lemma evict_filter tag names caches :
  foldl (λ caches cacheName,
           if decide (cacheName ≠ tag)
           then caches_delete cacheName caches else caches)
        caches names
  = filter (λ bucket, bucket.1 = tag ∨ bucket.1 ∉ names) caches.
Proof.
  revert caches. induction names as [|n names IH]; intros caches; simpl.
  - rewrite (filter_ext_in _ (λ _, True)).
    + induction caches as [|b caches IHc]; [done|].
      by rewrite filter_cons_True, <- IHc.
    + intros b _. split; [done|]. intros _. right. apply not_elem_of_nil.
  - rewrite IH. case_decide as Hn.
    + unfold caches_delete. rewrite list_filter_filter.
      apply list_filter_iff. intros b. rewrite not_elem_of_cons. split.
      * intros [[Htag | Hnames] Hne]; eauto.
      * intros [Htag | [Hne Hnames]]; split; eauto. congruence.
    + subst n. apply list_filter_iff. intros b. rewrite not_elem_of_cons.
      split.
      * intros [Htag | Hnames]; [by left|].
        destruct (decide (b.1 = tag)); eauto.
      * intros [Htag | [_ Hnames]]; eauto.
Qed.

Lemma onActivate_filter tag caches :
  onActivate tag caches = filter (λ bucket, bucket.1 = tag) caches.
Proof.
  unfold onActivate. rewrite evict_filter. apply filter_ext_in.
  intros b Hb. split; [|by left]. intros [Htag | Hout]; [done|].
  destruct Hout. unfold caches_keys. by apply list_elem_of_fmap_2.
Qed.

(** X16: the fetch handler touches one entry at most: what any bucket holds
    for any URL is as before, the current bucket at the URL of the request
    excepted; and the buckets keep their names and order, the current one
    being added at the end when it was missing and a response is stored. *)
Theorem onFetch_frame (tag : jsstring) (network : Request → option Response)
    (caches : CacheStorage) (request : Request) :
  (∀ name key,
     name ≠ tag ∨ key ≠ url request →
     bucket_lookup name key (onFetch tag network caches request).2
     = bucket_lookup name key caches)
  ∧ (caches_keys (onFetch tag network caches request).2 = caches_keys caches
     ∨ ((tag ∉ caches_keys caches)
        ∧ caches_keys (onFetch tag network caches request).2
          = caches_keys caches ++ [tag])).
Proof.
  unfold onFetch.
  destruct (caches_match (url request) caches); [by split; [|left]|].
  destruct (network request) as [response|].
  2: { by case_bool_decide; (split; [|left]). }
  destruct (bool_decide (status response ≠ 200)
            || bool_decide (type response ≠ js "basic")); [by split; [|left]|].
  simpl. split.
  - intros name key Hother.
    rewrite bucket_lookup_cache_put, bucket_lookup_caches_open.
    apply decide_False. intros (-> & -> & _). by destruct Hother.
  - rewrite caches_keys_cache_put. unfold caches_open.
    case_decide as Hin; [by left|]. right. split; [done|].
    unfold caches_keys. by rewrite fmap_app.
Qed.

(** The shell stays in the cache while a script is fetched and stored. *)
Lemma onFetch_frame_witness :
  bucket_lookup CACHE_NAME (js "/index.html")
    (onFetch CACHE_NAME (λ _, Some scriptResponse)
       [(CACHE_NAME, {[ js "/index.html" := shellResponse ]})] scriptRequest).2
  = Some shellResponse.
Proof.
  rewrite (proj1 (onFetch_frame CACHE_NAME (λ _, Some scriptResponse)
                    [(CACHE_NAME, {[ js "/index.html" := shellResponse ]})]
                    scriptRequest)).
  - vm_compute. reflexivity.
  - right. discriminate.
Defined.

(** X17: what the fetch handler has stored it serves: after a miss answered
    by the network with status 200 and type basic, the same request is
    answered from the cache with that response, whatever the network does
    then, and the cache is not touched again. *)
Theorem onFetch_then_hit (tag : jsstring)
    (network network' : Request → option Response) (caches : CacheStorage)
    (request : Request) (response : Response) :
  caches_match (url request) caches = None →
  network request = Some response →
  status response = 200 →
  type response = js "basic" →
  let caches' := (onFetch tag network caches request).2 in
  onFetch tag network' caches' request = (Some response, caches').
Proof.
  intros Hmiss Hnet Hstatus Htype. simpl.
  assert ((onFetch tag network caches request).2
          = cache_put tag (url request) response (caches_open tag caches))
    as ->.
  { unfold onFetch. rewrite Hmiss, Hnet.
    by rewrite !bool_decide_eq_false_2 by (intros Hne; by apply Hne). }
  unfold onFetch at 1.
  rewrite caches_match_put; [done | | apply caches_open_keys].
  by rewrite caches_match_open.
Qed.

(** The script is fetched once; offline, it is served from the cache. *)
Lemma onFetch_then_hit_witness :
  (onFetch CACHE_NAME (λ _, None)
     (onFetch CACHE_NAME (λ _, Some scriptResponse) [] scriptRequest).2
     scriptRequest).1
  = Some scriptResponse.
Proof.
  rewrite (onFetch_then_hit CACHE_NAME (λ _, Some scriptResponse) (λ _, None)
             [] scriptRequest scriptResponse);
    reflexivity.
Defined.

(** X18: activation keeps the buckets named by the version tag, in their
    order and with their content, and nothing else; activating again changes
    nothing. *)
Theorem onActivate_is_filter (tag : jsstring) (caches : CacheStorage) :
  onActivate tag caches = filter (λ bucket, bucket.1 = tag) caches
  ∧ onActivate tag (onActivate tag caches) = onActivate tag caches.
Proof.
  split; [apply onActivate_filter|].
  rewrite !onActivate_filter, list_filter_filter.
  apply list_filter_iff. intros b. by split; [intros [? _] | intros ?].
Qed.

(** X19: after the activation only the current generation is served: with
    bucket names that are distinct, what the cache storage answers for a URL
    is what the bucket of the version tag held for it, so nothing of an older
    bucket is returned any more. *)
Theorem onActivate_serves_current_only (tag key : jsstring)
    (caches : CacheStorage) :
  NoDup (caches_keys caches) →
  caches_match key (onActivate tag caches) = bucket_lookup tag key caches.
Proof.
  rewrite onActivate_filter. unfold caches_keys.
  induction caches as [|[n cache] caches IH]; [done|].
  rewrite fmap_cons. intros [Hn Hrest]%NoDup_cons. simpl in Hn.
  rewrite filter_cons. simpl. destruct (decide (n = tag)) as [-> | Hne].
  - simpl. destruct (cache !! key); [done|].
    rewrite IH by done.
    clear IH Hrest. induction caches as [|[m c] caches IH]; [done|]. simpl.
    rewrite decide_False.
    + apply IH. intros Hin. apply Hn. rewrite fmap_cons. by constructor.
    + intros ->. apply Hn. rewrite fmap_cons. constructor.
  - by apply IH.
Qed.

(** An old bucket holds a script; after the activation it is not served. *)
Lemma onActivate_serves_current_only_witness :
  caches_match (js "/app.js")
    (onActivate (js "app-v2")
       [ (js "app-v1", {[ js "/app.js" := scriptResponse ]});
         (js "app-v2", {[ js "/index.html" := shellResponse ]}) ])
  = None.
Proof.
  rewrite (onActivate_serves_current_only (js "app-v2") (js "/app.js")).
  - vm_compute. reflexivity.
  - apply (bool_decide_unpack _). vm_compute. exact I.
Defined.

End CacheFrames.

(** ** The background refresh *)

Section BackgroundRefresh.

Import ServiceWorker.

Variables (tag : jsstring) (network : Request → option Response).

Implicit Types (name key : jsstring) (caches : CacheStorage)
  (files : list (list N)).

(** One turn of the loop of [updateCache]. *)
Local Abbreviation refresh :=
  (λ (caches : CacheStorage) (file : list N),
     match network (requestFor (jsonUrl file)) with
     | Some response =>
         if ok response
         then cache_put tag (jsonUrl file) response caches
         else caches
     | None => caches
     end).

Lemma refresh_keys files caches :
  caches_keys (foldl refresh caches files) = caches_keys caches.
Proof.
  revert caches. induction files as [|file files IH]; intros caches; [done|].
  simpl. rewrite IH. destruct (network (requestFor (jsonUrl file))) as [response|]; [|done].
  destruct (ok response); [apply caches_keys_cache_put | done].
Qed.

Lemma refresh_other_bucket files caches name key :
  name ≠ tag →
  bucket_lookup name key (foldl refresh caches files)
  = bucket_lookup name key caches.
Proof.
  intros Hname. revert caches.
  induction files as [|file files IH]; intros caches; [done|].
  simpl. rewrite IH. destruct (network (requestFor (jsonUrl file))) as [response|]; [|done].
  destruct (ok response); [|done].
  rewrite bucket_lookup_cache_put. apply decide_False. by intros (? & _).
Qed.

Lemma refresh_not_fetched files caches key :
  (∀ response, network (requestFor key) = Some response → ok response = false) →
  bucket_lookup tag key (foldl refresh caches files)
  = bucket_lookup tag key caches.
Proof.
  intros Hfailed. revert caches.
  induction files as [|file files IH]; intros caches; [done|].
  simpl. rewrite IH.
  destruct (network (requestFor (jsonUrl file))) as [response|] eqn:Hnet; [|done].
  destruct (ok response) eqn:Hok; [|done].
  rewrite bucket_lookup_cache_put. apply decide_False. intros (_ & -> & _).
  by rewrite (Hfailed _ Hnet) in Hok.
Qed.

Lemma refresh_not_listed files caches key :
  key ∉ jsonUrl <$> files →
  bucket_lookup tag key (foldl refresh caches files)
  = bucket_lookup tag key caches.
Proof.
  revert caches.
  induction files as [|file files IH]; intros caches Hkey; [done|].
  rewrite fmap_cons, not_elem_of_cons in Hkey. destruct Hkey as [Hfile Hkey].
  simpl. rewrite IH by done.
  destruct (network (requestFor (jsonUrl file))) as [response|]; [|done].
  destruct (ok response); [|done].
  rewrite bucket_lookup_cache_put. apply decide_False. by intros (_ & ? & _).
Qed.

Lemma refresh_fetched files caches file response :
  tag ∈ caches_keys caches →
  file ∈ files →
  network (requestFor (jsonUrl file)) = Some response →
  ok response = true →
  bucket_lookup tag (jsonUrl file) (foldl refresh caches files) = Some response.
Proof.
  intros Htag Hfile Hnet Hok. revert Hfile.
  induction files as [|last files IH] using rev_ind;
    [by intros ?%elem_of_nil|].
  intros Hfile. rewrite foldl_app. simpl.
  destruct (decide (jsonUrl last = jsonUrl file)) as [Heq | Hne].
  - rewrite Heq, Hnet, Hok, bucket_lookup_cache_put.
    apply decide_True. split_and!; [done..|]. by rewrite refresh_keys.
  - assert (file ∈ files) as Hin.
    { apply elem_of_app in Hfile as [? | ->%list_elem_of_singleton]; done. }
    destruct (network (requestFor (jsonUrl last))) as [r|]; [|by apply IH].
    destruct (ok r); [|by apply IH].
    rewrite bucket_lookup_cache_put, decide_False; [by apply IH|].
    intros (_ & ? & _). congruence.
Qed.

(** X20: the background refresh.  For every dataset whose JSON file the
    network returns with an ok status, the current bucket holds that response
    afterwards.  What it holds for any other URL, and for a dataset whose
    fetch fails or is not ok, is as before, and so is every other bucket: a
    failure stops neither the loop nor the entries already there.  A sync
    event with another tag changes nothing. *)
Theorem updateCache_refreshes (caches : CacheStorage) :
  (∀ file response,
     file ∈ dataFiles →
     network (requestFor (jsonUrl file)) = Some response →
     ok response = true →
     bucket_lookup tag (jsonUrl file) (updateCache tag network caches)
     = Some response)
  ∧ (∀ key,
       key ∉ jsonUrl <$> dataFiles
       ∨ (∀ response, network (requestFor key) = Some response →
                      ok response = false) →
       bucket_lookup tag key (updateCache tag network caches)
       = bucket_lookup tag key caches)
  ∧ (∀ name key,
       name ≠ tag →
       bucket_lookup name key (updateCache tag network caches)
       = bucket_lookup name key caches)
  ∧ (∀ syncTag,
       syncTag ≠ js "background-sync" →
       onSync tag syncTag network caches = caches).
Proof.
  unfold updateCache. split_and!.
  - intros file response Hfile Hnet Hok.
    by apply refresh_fetched; [apply caches_open_keys|..].
  - intros key [Hkey | Hfailed].
    + by rewrite refresh_not_listed, bucket_lookup_caches_open.
    + by rewrite refresh_not_fetched, bucket_lookup_caches_open.
  - intros name key Hname.
    by rewrite refresh_other_bucket, bucket_lookup_caches_open.
  - intros syncTag Hsync. unfold onSync. by rewrite bool_decide_eq_false_2.
Qed.

End BackgroundRefresh.

(** The menu of one dataset is refreshed, the others cannot be fetched: the
    bucket holds the new menu, and the shell it held is still there. *)
Lemma updateCache_refreshes_witness :
  let network := λ request : ServiceWorker.Request,
    if bool_decide (ServiceWorker.url request = js "/json/en/VITC-M-V.json")
    then Some ServiceWorker.scriptResponse else None in
  let caches := [(ServiceWorker.CACHE_NAME,
                  {[ js "/index.html" := ServiceWorker.shellResponse ]})] in
  ServiceWorker.bucket_lookup ServiceWorker.CACHE_NAME
    (js "/json/en/VITC-M-V.json")
    (ServiceWorker.updateCache ServiceWorker.CACHE_NAME network caches)
  = Some ServiceWorker.scriptResponse
  ∧ ServiceWorker.bucket_lookup ServiceWorker.CACHE_NAME (js "/index.html")
      (ServiceWorker.updateCache ServiceWorker.CACHE_NAME network caches)
    = Some ServiceWorker.shellResponse.
Proof.
  intros network caches.
  destruct (updateCache_refreshes ServiceWorker.CACHE_NAME network caches)
    as (Hfetched & Hkept & _ & _).
  split.
  - apply (Hfetched (js "VITC-M-V")).
    + apply (bool_decide_unpack _). vm_compute. exact I.
    + reflexivity.
    + reflexivity.
  - rewrite Hkept; [reflexivity|]. left.
    apply (bool_decide_unpack _). vm_compute. exact I.
Defined.

(** ** How the handlers of the editor compose *)

Section Composition.

Implicit Types (st : EditorState) (rs : list Row).

Lemma filter_keeps_all {A} (P : A → Prop) `{!∀ x, Decision (P x)} (l : list A) :
  (∀ x, x ∈ l → P x) → filter P l = l.
Proof.
  induction l as [|x l IH]; intros Hall; [done|].
  rewrite filter_cons_True by (apply Hall; constructor).
  f_equal. apply IH. intros y Hy. apply Hall. by constructor.
Qed.

Lemma list_find_updated rs index row row' rowId :
  list_find (λ r, id r = rowId) rs = Some (index, row) →
  id row' = rowId →
  list_find (λ r, id r = rowId) (<[index := row']> rs) = Some (index, row').
Proof.
  intros (Hrow & Hid & Hfirst)%list_find_Some Hid'.
  apply list_find_Some. split_and!.
  - apply list_lookup_insert_eq. by eapply lookup_lt_Some.
  - done.
  - intros j r Hj Hlt. rewrite list_lookup_insert_ne in Hj by lia.
    by eapply Hfirst.
Qed.

End Composition.



(** X22: deleting the row that addRow has just appended undoes the
    addition: the current table is as before, and in a coherent state the
    whole state is. *)
Theorem addRow_then_delete (st : EditorState) :
  let st' := deleteSelectedRow (addRow st) [newRowId (currentData st)] true in
  currentData st' = currentData st
  ∧ originalData st' = originalData st
  ∧ (coherent st → st' = st).
Proof.
  simpl.
  assert (filter (λ row, id row ∉ [newRowId (currentData st)])
            (rows (currentData st)
             ++ [ {| id := newRowId (currentData st);
                     values := replicate (length (headers (currentData st))) [] |} ])
          = rows (currentData st)) as Hfilter.
  { rewrite filter_app, filter_cons_False, filter_nil, app_nil_r.
    2: { intros Hout. apply Hout. constructor. }
    apply filter_keeps_all. intros row Hrow Hin%list_elem_of_singleton.
    apply (newRowId_fresh (currentData st)). rewrite <- Hin.
    by apply list_elem_of_fmap_2. }
  unfold deleteSelectedRow. simpl. rewrite Hfilter.
  split_and!; [by destruct (currentData st) | done |].
  intros (_ & _ & _ & Hflag). unfold checkForChanges. simpl.
  destruct st as [original [hs rs] file flag]. simpl in *. by rewrite Hflag.
Qed.

(** The edited example, a row added and deleted again. *)
Lemma addRow_then_delete_witness :
  let st := handle exampleState (CellChanged 0 1 (js "101-199")) in
  deleteSelectedRow (addRow st) [newRowId (currentData st)] true = st.
Proof.
  apply (proj2 (proj2 (addRow_then_delete
                         (handle exampleState (CellChanged 0 1 (js "101-199")))))).
  apply reachable_coherent, edited_example_reachable.
Defined.

(** X23: the last input wins.  Two cell changes on the same row and column
    leave the state of the second alone; so an input event handled twice, as
    by listeners bound more than once, gives the state of handling it
    once. *)
Theorem handleCellChange_last_wins (st : EditorState) (rowId : Z)
    (colIndex : nat) (first second : jsstring) :
  handleCellChange (handleCellChange st rowId colIndex first)
                   rowId colIndex second
  = handleCellChange st rowId colIndex second
  ∧ handleCellChange (handleCellChange st rowId colIndex second)
                     rowId colIndex second
    = handleCellChange st rowId colIndex second.
Proof.
  assert (∀ v w,
            handleCellChange (handleCellChange st rowId colIndex v)
                             rowId colIndex w
            = handleCellChange st rowId colIndex w) as Hwins; [|by split].
  intros v w. unfold handleCellChange at 2 3.
  destruct (list_find _ _) as [[index row]|] eqn:Hfind.
  - unfold handleCellChange, checkForChanges. simpl.
    pose proof Hfind as (_ & Hid & _)%list_find_Some.
    rewrite (list_find_updated _ index row
               {| id := id row; values := <[colIndex:=v]> (values row) |} rowId)
      by done.
    simpl. by rewrite list_insert_insert_eq, list_insert_insert_eq.
  - unfold handleCellChange. by rewrite Hfind.
Qed.

(** ** The value shown in a cell *)

Section ShownValue.

Implicit Types (field s : jsstring).

Lemma unpairQuotes_doubled field :
  unpairQuotes (field ≫= λ c, if N.eqb c QUOTE then [QUOTE; QUOTE] else [c])
  = field.
Proof.
  induction field as [|c field IH]; [done|].
  rewrite bind_cons. cbn beta. destruct (N.eqb_spec c QUOTE) as [-> | Hc].
  - simpl. by rewrite IH.
  - simpl. apply N.eqb_neq in Hc.
    destruct (field ≫= _) as [|next rest] eqn:Hrest.
    + destruct field as [|d field]; [done|].
      rewrite bind_cons in Hrest. cbn beta in Hrest.
      by destruct (N.eqb d QUOTE).
    + rewrite Hc. simpl. by rewrite <- IH.
Qed.

Lemma sliceInner_quoted s : sliceInner ([QUOTE] ++ s ++ [QUOTE]) = s.
Proof. unfold sliceInner. simpl. apply removelast_last. Qed.

End ShownValue.

(** X24: the cell of a value that the serializer would quote, given in its
    quoted form, shows the value: cleanValue takes the outer quotes away and
    undoes the doubling of the quotes inside.  A value that is one double
    quote alone is shown as the empty text. *)
Theorem cleanValue_unquotes :
  (∀ field : jsstring,
     cleanValue ([QUOTE] ++ (field ≫= λ c, if N.eqb c QUOTE
                                            then [QUOTE; QUOTE] else [c])
                 ++ [QUOTE])
     = field)
  ∧ (∀ field : jsstring,
       escapeCSVField field ≠ field →
       cleanValue (escapeCSVField field) = field)
  ∧ cleanValue [QUOTE] = [].
Proof.
  assert (∀ field : jsstring,
            cleanValue ([QUOTE] ++ (field ≫= λ c, if N.eqb c QUOTE
                                                   then [QUOTE; QUOTE] else [c])
                        ++ [QUOTE])
            = field) as Hquoted.
  { intros field. unfold cleanValue.
    rewrite bool_decide_eq_true_2 by done.
    rewrite bool_decide_eq_true_2.
    - simpl andb. cbv iota. by rewrite sliceInner_quoted, unpairQuotes_doubled.
    - rewrite app_assoc. apply last_snoc. }
  split_and!; [done | | done].
  intros field Hescaped.
  destruct (escapeCSVField_plain field) as [[Hplain _] | ->]; [done|].
  apply Hquoted.
Qed.

(** A menu entry with a comma and a quoted word. *)
Lemma cleanValue_unquotes_witness :
  cleanValue (escapeCSVField (js "Idli, " ++ [QUOTE] ++ js "hot" ++ [QUOTE]))
  = js "Idli, " ++ [QUOTE] ++ js "hot" ++ [QUOTE].
Proof.
  apply (proj1 (proj2 cleanValue_unquotes)
               (js "Idli, " ++ [QUOTE] ++ js "hot" ++ [QUOTE])).
  vm_compute. discriminate.
Defined.

Lemma unpairQuotes_length (s : jsstring) :
  (length (unpairQuotes s) ≤ length s)%nat.
Proof.
  assert (∀ n (t : jsstring), (length t ≤ n)%nat →
            (length (unpairQuotes t) ≤ length t)%nat) as Hupto.
  { induction n as [|n IH]; intros t Hlen.
    - destruct t; [done | simpl in Hlen; lia].
    - destruct t as [|c [|next rest]]; [done..|].
      simpl in Hlen. simpl unpairQuotes.
      destruct (N.eqb c QUOTE && N.eqb next QUOTE); simpl.
      + specialize (IH rest). lia.
      + specialize (IH (next :: rest)). simpl in IH. lia. }
  by apply (Hupto (length s)).
Qed.

(** X25: a value that starts and ends with a double quote is not shown as
    it is stored: the text in its cell is shorter than the value. *)
Theorem cleanValue_hides_quotes (value : jsstring) :
  head value = Some QUOTE → last value = Some QUOTE →
  (length (cleanValue value) < length value)%nat.
Proof.
  intros Hhead Hlast. unfold cleanValue.
  rewrite !bool_decide_eq_true_2 by done. simpl andb. cbv iota.
  pose proof (unpairQuotes_length (sliceInner value)) as Hshort.
  assert (length (sliceInner value) < length value)%nat; [|lia].
  unfold sliceInner. destruct value as [|c value]; [done|]. simpl.
  destruct value as [|d value] using rev_ind; [simpl; lia|].
  rewrite removelast_last, length_app. simpl. lia.
Qed.

(** The stored value is the word hot between double quotes; hot is shown. *)
Lemma cleanValue_hides_quotes_witness :
  (length (cleanValue ([QUOTE] ++ js "hot" ++ [QUOTE])) < 5)%nat.
Proof.
  apply (cleanValue_hides_quotes ([QUOTE] ++ js "hot" ++ [QUOTE]));
    reflexivity.
Defined.
